(** * One-time key distribution: a model of server.js and migrate.js

    The server hands out single-use keys.  Unused keys sit in a Redis set,
    every issued link is a row of the Postgres table [issued_pages], and a
    key is shown once by the page /key/:pageId.

    The handlers of server.js are embedded as programs over the calls they
    make to Redis, Postgres and the console.  Every awaited call may be
    rejected by its store; the handlers' try/catch/finally blocks are kept.
    The express-rate-limit middleware in front of /claim and the helmet
    headers are not part of the model.  Strings are byte strings. *)

From Stdlib Require Import ZArith String Ascii List Bool Lia Sorted.
From stdpp Require Import base option gmap sets list strings pretty.

Open Scope string_scope.
Open Scope Z_scope.

(** ** JavaScript truthiness of the values the handlers test *)

Module JS.

(** [!!s] for a string that may be undefined or null. *)
Definition truthy_str (s : option string) : bool :=
  match s with
  | Some s => negb (String.eqb s "")
  | None => false
  end.

(** [a || b] on such strings. *)
Definition or_str (a b : option string) : option string :=
  if truthy_str a then a else b.

(** [!!b] for a boolean column that may be NULL. *)
Definition truthy_bool (b : option bool) : bool :=
  match b with
  | Some true => true
  | _ => false
  end.

End JS.

(** ** Data model (migrate.js) *)

(** Table [keys]: the columns the server reads.  [deprecated] is
    BOOLEAN DEFAULT false, hence nullable. *)
Record key_row := {
  k_key_text : string;
  k_deprecated : option bool;
}.

(** Table [issued_pages], keyed by [id]. *)
Record issued_page := {
  key_text : string;
  created_at : Z;
  used : option bool;
  used_at : option Z;
  ip : option string;
  user_agent : option string;
}.

(** The columns selected by /admin/issued. *)
Record issued_view := {
  v_id : string;
  v_key_text : string;
  v_used : option bool;
  v_created_at : Z;
  v_used_at : option Z;
  v_ip : option string;
}.

(** Both stores.  [unused_keys] is the Redis set named by KEY_SET,
    [redis_strings] the Redis string keys with their TTL in seconds.
    [issued_pages] holds committed rows; [txns] the uncommitted writes of
    each connection with an open transaction; [locks] the row locks, by
    owning connection. *)
Record world := {
  unused_keys : gset string;
  redis_strings : gmap string (Z * string);
  keys : list key_row;
  issued_pages : gmap string issued_page;
  txns : gmap nat (gmap string issued_page);
  locks : gmap string nat;
  console : list string;
}.

Definition with_unused_keys (s : gset string) (w : world) : world :=
  {| unused_keys := s; redis_strings := redis_strings w; keys := keys w;
     issued_pages := issued_pages w; txns := txns w; locks := locks w;
     console := console w |}.

Definition with_redis_strings (m : gmap string (Z * string)) (w : world) : world :=
  {| unused_keys := unused_keys w; redis_strings := m; keys := keys w;
     issued_pages := issued_pages w; txns := txns w; locks := locks w;
     console := console w |}.

Definition with_issued_pages (m : gmap string issued_page) (w : world) : world :=
  {| unused_keys := unused_keys w; redis_strings := redis_strings w; keys := keys w;
     issued_pages := m; txns := txns w; locks := locks w;
     console := console w |}.

Definition with_txns (t : gmap nat (gmap string issued_page)) (w : world) : world :=
  {| unused_keys := unused_keys w; redis_strings := redis_strings w; keys := keys w;
     issued_pages := issued_pages w; txns := t; locks := locks w;
     console := console w |}.

Definition with_locks (l : gmap string nat) (w : world) : world :=
  {| unused_keys := unused_keys w; redis_strings := redis_strings w; keys := keys w;
     issued_pages := issued_pages w; txns := txns w; locks := l;
     console := console w |}.

Definition with_console (c : list string) (w : world) : world :=
  {| unused_keys := unused_keys w; redis_strings := redis_strings w; keys := keys w;
     issued_pages := issued_pages w; txns := txns w; locks := locks w;
     console := c |}.

(** What a request draws from outside the stores: the member SPOP picks,
    the identifier uuidv4() returns, and the database clock. *)
Record env := {
  rnd : nat;
  uuid : string;
  now : Z;
}.

(** ** Store calls *)

Inductive result (X : Type) : Type :=
| Ok (x : X)
| Err.
Arguments Ok {X} x.
Arguments Err {X}.

Inductive op : Type -> Type :=
| SPop : op (option string)
| SetEx (k : string) (ttl : Z) (v : string) : op unit
| Del (k : string) : op unit
| MultiSAdd (members : list string) : op unit
| Uuidv4 : op string
| InsertIssued (id : string) (key : option string) : op unit
| Connect : op unit
| Begin : op unit
| SelectForUpdate (id : string) : op (list (string * option bool))
| UpdateUsed (id : string) (client_ip : option string) (ua : string) : op unit
| Commit : op unit
| Rollback : op unit
| Release : op unit
| SelectKeys : op (list string)
| SelectIssued : op (list issued_view)
| ConsoleError (msg : string) : op unit.

(** Calls that go over the network and may be rejected. *)
Definition faultable {X} (o : op X) : bool :=
  match o with
  | Uuidv4 | Release | ConsoleError _ => false
  | _ => true
  end.

Module Store.

(** SPOP: remove and return a member chosen by [rnd]; null on an empty set. *)
Definition sPop (r : nat) (s : gset string) : option string * gset string :=
  match elements s !! (r mod length (elements s))%nat with
  | Some k => (Some k, s ∖ {[ k ]})
  | None => (None, s)
  end.

(** The rows of [issued_pages] connection [c] sees: its own uncommitted
    writes over the committed table. *)
Definition visible (c : nat) (w : world) : gmap string issued_page :=
  default ∅ (txns w !! c) ∪ issued_pages w.

Definition locked_by_other (c : nat) (id : string) (w : world) : bool :=
  match locks w !! id with
  | Some c' => negb (Nat.eqb c' c)
  | None => false
  end.

Definition release_locks (c : nat) (l : gmap string nat) : gmap string nat :=
  filter (fun kv => kv.2 ≠ c) l.

(** Ending the transaction of [c]: its writes are dropped, its locks freed. *)
Definition end_txn (c : nat) (w : world) : world :=
  with_locks (release_locks c (locks w)) (with_txns (delete c (txns w)) w).

Definition fresh_row (key : string) (t : Z) : issued_page :=
  {| key_text := key; created_at := t; used := Some false;
     used_at := None; ip := None; user_agent := None |}.

Definition mark_used (t : Z) (client_ip : option string) (ua : string)
    (r : issued_page) : issued_page :=
  {| key_text := key_text r; created_at := created_at r; used := Some true;
     used_at := Some t; ip := client_ip; user_agent := Some ua |}.

(** Writing a row: into the open transaction of [c], or straight into the
    table when [c] has none. *)
Definition write_row (c : nat) (id : string) (r : issued_page) (w : world) : world :=
  match txns w !! c with
  | Some pending => with_txns (<[c := <[id := r]> pending]> (txns w)) w
  | None => with_issued_pages (<[id := r]> (issued_pages w)) w
  end.

Definition take_lock (c : nat) (id : string) (w : world) : world :=
  match txns w !! c with
  | Some _ => with_locks (<[id := c]> (locks w)) w
  | None => w
  end.

Fixpoint insert_desc (x : string * issued_page) (l : list (string * issued_page))
    : list (string * issued_page) :=
  match l with
  | [] => [x]
  | y :: l' =>
      if created_at y.2 <=? created_at x.2 then x :: l
      else y :: insert_desc x l'
  end.

Definition view_of (x : string * issued_page) : issued_view :=
  {| v_id := x.1; v_key_text := key_text x.2; v_used := used x.2;
     v_created_at := created_at x.2; v_used_at := used_at x.2; v_ip := ip x.2 |}.

(** ORDER BY created_at DESC LIMIT 200. *)
Definition latest_issued (m : gmap string issued_page) : list issued_view :=
  view_of <$> take 200 (foldr insert_desc [] (map_to_list m)).

(** WHERE deprecated = false: NULL does not qualify. *)
Definition live_key (k : key_row) : bool :=
  match k_deprecated k with
  | Some false => true
  | _ => false
  end.

(** One call by connection [c], performed by its store.  [None]: the call
    waits for a row lock held by another connection.  [Err]: the store
    rejects the call by its schema (key_text NOT NULL, id PRIMARY KEY).
    A connection released with a transaction still open (its ROLLBACK was
    rejected) has that transaction aborted. *)
Definition exec {X} (c : nat) (e : env) (o : op X) (w : world)
    : option (result X * world) :=
  match o in op X return option (result X * world) with
  | SPop =>
      let '(k, s) := sPop (rnd e) (unused_keys w) in
      Some (Ok k, with_unused_keys s w)
  | SetEx k ttl v =>
      Some (Ok tt, with_redis_strings (<[k := (ttl, v)]> (redis_strings w)) w)
  | Del k =>
      Some (Ok tt, with_redis_strings (delete k (redis_strings w)) w)
  | MultiSAdd members =>
      Some (Ok tt, with_unused_keys (unused_keys w ∪ list_to_set members) w)
  | Uuidv4 => Some (Ok (uuid e), w)
  | InsertIssued id key =>
      match key, issued_pages w !! id with
      | Some key, None =>
          Some (Ok tt,
                with_issued_pages (<[id := fresh_row key (now e)]> (issued_pages w)) w)
      | _, _ => Some (Err, w)
      end
  | Connect => Some (Ok tt, w)
  | Begin =>
      match txns w !! c with
      | Some _ => Some (Ok tt, w)
      | None => Some (Ok tt, with_txns (<[c := ∅]> (txns w)) w)
      end
  | SelectForUpdate id =>
      match visible c w !! id with
      | None => Some (Ok [], w)
      | Some r =>
          if locked_by_other c id w then None
          else Some (Ok [(key_text r, used r)], take_lock c id w)
      end
  | UpdateUsed id client_ip ua =>
      match visible c w !! id with
      | None => Some (Ok tt, w)
      | Some r =>
          if locked_by_other c id w then None
          else Some (Ok tt,
                     write_row c id (mark_used (now e) client_ip ua r)
                       (take_lock c id w))
      end
  | Commit =>
      Some (Ok tt, end_txn c (with_issued_pages (visible c w) w))
  | Rollback => Some (Ok tt, end_txn c w)
  | Release => Some (Ok tt, end_txn c w)
  | SelectKeys => Some (Ok (k_key_text <$> filter (fun k => live_key k = true) (keys w)), w)
  | SelectIssued => Some (Ok (latest_issued (issued_pages w)), w)
  | ConsoleError msg => Some (Ok tt, with_console (msg :: console w) w)
  end.

End Store.

(** ** Handler programs *)

(** A handler is a tree of store calls.  Each call continues with the
    store's answer or with its rejection; [Throw] is a pending exception. *)
Inductive prog (A : Type) : Type :=
| Ret (a : A)
| Throw
| Call {X : Type} (o : op X) (k : result X -> prog A).
Arguments Ret {A} a.
Arguments Throw {A}.
Arguments Call {A X} o k.

(** [await o]: the value of the call, or the exception of its rejection. *)
Definition call {X} (o : op X) : prog X :=
  Call o (fun r => match r with Ok x => Ret x | Err => Throw end).

Fixpoint bind {A B} (p : prog A) (f : A -> prog B) : prog B :=
  match p with
  | Ret a => f a
  | Throw => Throw
  | Call o k => Call o (fun r => bind (k r) f)
  end.

(** [try { p } catch (err) { h }] *)
Fixpoint try_catch {A} (p : prog A) (h : prog A) : prog A :=
  match p with
  | Ret a => Ret a
  | Throw => h
  | Call o k => Call o (fun r => try_catch (k r) h)
  end.

(** [try { p } finally { q }] *)
Fixpoint finally {A} (p : prog A) (q : prog unit) : prog A :=
  match p with
  | Ret a => bind q (fun _ => Ret a)
  | Throw => bind q (fun _ => Throw)
  | Call o k => Call o (fun r => finally (k r) q)
  end.

(** [p.catch(() => {})] *)
Definition swallow {A} (p : prog A) : prog unit :=
  try_catch (bind p (fun _ => Ret tt)) (Ret tt).

Declare Scope prog_scope.
Delimit Scope prog_scope with prog.
Notation "x <- p ;; q" := (bind p (fun x => q))
  (at level 100, p at next level, right associativity) : prog_scope.
Notation "'do' p ;; q" := (bind p (fun _ => q))
  (at level 100, p at next level, right associativity) : prog_scope.
Open Scope prog_scope.

(** ** The server (server.js) *)

Record config := {
  KEY_SET : string;
  CLAIM_TTL_SECONDS : Z;
  ADMIN_TOKEN : option string;
}.

(** The parts of an express request the handlers read.  A body token that
    is not a string is never equal to ADMIN_TOKEN and is left out. *)
Record request := {
  req_ip : option string;
  req_remoteAddress : option string;
  req_user_agent : option string;
  req_admin_header : option string;
  req_body_token : option string;
  req_pageId : string;
}.

Inductive response : Type :=
| Send (status : Z) (cache_control : option string) (body : string)
| Redirect (location : string)
| JsonHealth
| JsonIssued (rows : list issued_view).

Definition dq : ascii := "034"%char.

Definition escape_char (c : ascii) : string :=
  if Ascii.eqb c "&" then "&amp;"
  else if Ascii.eqb c "<" then "&lt;"
  else if Ascii.eqb c ">" then "&gt;"
  else if Ascii.eqb c dq then "&quot;"
  else if Ascii.eqb c "'" then "&#39;"
  else String c "".

(** [escapeHtml]; its argument is a key_text, never null. *)
Fixpoint escapeHtml (s : string) : string :=
  match s with
  | EmptyString => ""
  | String c s' => escape_char c +:+ escapeHtml s'
  end.

(** [s] between double quotes. *)
Definition quoted (s : string) : string := String dq s +:+ String dq "".

Definition key_page (escaped : string) : string :=
  "<html><head><meta name=" +:+ quoted "robots" +:+ " content=" +:+ quoted "noindex"
  +:+ "></head><body><h1>Your Key</h1><p style="
  +:+ quoted "font-family:monospace;font-size:18px;" +:+ ">" +:+ escaped
  +:+ "</p><p>Do not share this link — it is single-use.</p></body></html>".

Definition no_store : string := "no-store, no-cache, must-revalidate, private".

(** [!token || token !== process.env.ADMIN_TOKEN] *)
Definition rejected (token admin : option string) : bool :=
  negb (JS.truthy_str token) || negb (bool_decide (token = admin)).

(** GET /_health *)
Definition get_health : prog response := Ret JsonHealth.

(** GET /claim *)
Definition get_claim (cfg : config) : prog response :=
  try_catch
    (poppedKey <- call SPop ;;
     if negb (JS.truthy_str poppedKey) then
       Ret (Send 404 None "No keys available")
     else
       pageId <- call Uuidv4 ;;
       do call (InsertIssued pageId poppedKey) ;;
       do call (SetEx ("page_ttl:" +:+ pageId) (CLAIM_TTL_SECONDS cfg) "1") ;;
       Ret (Redirect ("/key/" +:+ pageId)))
    (do call (ConsoleError "claim error") ;;
     Ret (Send 500 None "Server error")).

(** The transaction of GET /key/:pageId, inside its try block. *)
Definition serve_key (pageId : string) (clientIp : option string) (ua : string)
    : prog response :=
  do call Begin ;;
  rows <- call (SelectForUpdate pageId) ;;
  match rows with
  | [] =>
      do call Rollback ;;
      Ret (Send 404 None "Invalid or expired link")
  | (keyText, used) :: _ =>
      if JS.truthy_bool used then
        do call Rollback ;;
        Ret (Send 410 None "This key has already been claimed")
      else
        do call (UpdateUsed pageId clientIp ua) ;;
        do call Commit ;;
        do call (Del ("page_ttl:" +:+ pageId)) ;;
        Ret (Send 200 (Some no_store) (key_page (escapeHtml keyText)))
  end.

(** The catch block of GET /key/:pageId. *)
Definition on_key_error : prog response :=
  do swallow (call Rollback) ;;
  do call (ConsoleError "key serve error") ;;
  Ret (Send 500 None "Server error").

(** GET /key/:pageId *)
Definition get_key (req : request) : prog response :=
  let pageId := req_pageId req in
  let clientIp := JS.or_str (req_ip req) (req_remoteAddress req) in
  let ua := default "" (JS.or_str (req_user_agent req) (Some "")) in
  do call Connect ;;
  finally
    (try_catch (serve_key pageId clientIp ua) on_key_error)
    (call Release).

(** POST /admin/seed-redis *)
Definition post_admin_seed_redis (cfg : config) (req : request) : prog response :=
  let token := JS.or_str (req_admin_header req) (req_body_token req) in
  if rejected token (ADMIN_TOKEN cfg) then Ret (Send 401 None "unauthorized")
  else
    try_catch
      (rows <- call SelectKeys ;;
       if (length rows =? 0)%nat then Ret (Send 200 None "no keys in DB")
       else
         do call (MultiSAdd rows) ;;
         Ret (Send 200 None
                ("seeded " +:+ pretty (length rows) +:+ " keys to redis set "
                 +:+ KEY_SET cfg)))
      (do call (ConsoleError "seed redis error") ;;
       Ret (Send 500 None "server error")).

(** GET /admin/issued *)
Definition get_admin_issued (cfg : config) (req : request) : prog response :=
  let token := req_admin_header req in
  if rejected token (ADMIN_TOKEN cfg) then Ret (Send 401 None "unauthorized")
  else
    rows <- call SelectIssued ;;
    Ret (JsonIssued rows).

Inductive route : Type :=
| GET_health
| GET_claim
| GET_key
| POST_admin_seed_redis
| GET_admin_issued.

Definition handler (cfg : config) (r : route) (req : request) : prog response :=
  match r with
  | GET_health => get_health
  | GET_claim => get_claim cfg
  | GET_key => get_key req
  | POST_admin_seed_redis => post_admin_seed_redis cfg req
  | GET_admin_issued => get_admin_issued cfg req
  end.

(** ** Running one request to completion *)

(** [Unhandled]: the handler's promise is rejected and no response is
    sent.  [Waiting]: the request is stuck behind another connection's row
    lock. *)
Inductive outcome (A : Type) : Type :=
| Done (a : A)
| Unhandled
| Waiting.
Arguments Done {A} a.
Arguments Unhandled {A}.
Arguments Waiting {A}.

(** [faults] says, for each faultable call in turn, whether its store
    rejects it; a rejected call leaves the stores as they were.  Beyond
    the end of the list no call is rejected. *)
Fixpoint run {A} (c : nat) (e : env) (p : prog A) (faults : list bool) (w : world)
    : outcome A * world :=
  match p with
  | Ret a => (Done a, w)
  | Throw => (Unhandled, w)
  | Call o k =>
      if faultable o && hd false faults then run c e (k Err) (tl faults) w
      else
        match Store.exec c e o w with
        | None => (Waiting, w)
        | Some (r, w') =>
            run c e (k r) (if faultable o then tl faults else faults) w'
        end
  end.

(** ** Requests served one after the other *)

(** No request is in flight: no open transaction, no row lock. *)
Definition quiescent (w : world) : Prop :=
  txns w = ∅ ∧ locks w = ∅.

(** None of the first [n] faultable calls is rejected. *)
Fixpoint calm (n : nat) (faults : list bool) : bool :=
  match n, faults with
  | S n', b :: faults' => negb b && calm n' faults'
  | _, _ => true
  end.

Record event := {
  ev_route : route;
  ev_req : request;
  ev_conn : nat;
  ev_env : env;
  ev_faults : list bool;
}.

Definition serve (cfg : config) (ev : event) (w : world) : outcome response * world :=
  run (ev_conn ev) (ev_env ev) (handler cfg (ev_route ev) (ev_req ev))
    (ev_faults ev) w.

Fixpoint serve_all (cfg : config) (evs : list event) (w : world)
    : list (outcome response) * world :=
  match evs with
  | [] => ([], w)
  | ev :: evs' =>
      let '(o, w1) := serve cfg ev w in
      let '(os, w2) := serve_all cfg evs' w1 in
      (o :: os, w2)
  end.

(** The [used] flag of link [id], as the handler reads it. *)
Definition consumed (id : string) (w : world) : bool :=
  match issued_pages w !! id with
  | Some r => JS.truthy_bool (used r)
  | None => false
  end.

(** The request is a GET /key/[id] answered with the key page. *)
Definition key_served (id : string) (ev : event) (o : outcome response) : bool :=
  match ev_route ev, o with
  | GET_key, Done (Send status _ _) =>
      (status =? 200) && String.eqb (req_pageId (ev_req ev)) id
  | _, _ => false
  end.

(** How many requests of a run are answered with the key of link [id]. *)
Fixpoint deliveries (cfg : config) (id : string) (evs : list event) (w : world) : nat :=
  match evs with
  | [] => 0%nat
  | ev :: evs' =>
      let '(o, w1) := serve cfg ev w in
      ((if key_served id ev o then 1 else 0) + deliveries cfg id evs' w1)%nat
  end.

(** The values a GET /key request stamps on the row. *)
Definition client_ip (req : request) : option string :=
  JS.or_str (req_ip req) (req_remoteAddress req).

Definition agent (req : request) : string :=
  default "" (JS.or_str (req_user_agent req) (Some "")).

Definition redeemed (e : env) (req : request) (r : issued_page) : issued_page :=
  Store.mark_used (now e) (client_ip req) (agent req) r.

(** The responses of the handlers, by name. *)
Definition no_keys_available : response := Send 404 None "No keys available".
Definition invalid_or_expired : response := Send 404 None "Invalid or expired link".
Definition already_claimed : response := Send 410 None "This key has already been claimed".
Definition server_error : response := Send 500 None "Server error".
Definition unauthorized : response := Send 401 None "unauthorized".
Definition your_key (k : string) : response :=
  Send 200 (Some no_store) (key_page (escapeHtml k)).
Definition link_to (id : string) : response := Redirect ("/key/" +:+ id).

(** ** What a request can answer, and what it leaves behind *)

(** The key_text values SELECT ... WHERE deprecated = false returns. *)
Definition live_keys (w : world) : list string :=
  k_key_text <$> filter (fun k => Store.live_key k = true) (keys w).

(** SETEX page_ttl:[id] CLAIM_TTL_SECONDS '1' *)
Definition marker (cfg : config) (id : string) (m : gmap string (Z * string))
    : gmap string (Z * string) :=
  <["page_ttl:" +:+ id := (CLAIM_TTL_SECONDS cfg, "1")]> m.

Definition seeded (cfg : config) (n : nat) : response :=
  Send 200 None ("seeded " +:+ pretty n +:+ " keys to redis set " +:+ KEY_SET cfg).

(** The credential POST /admin/seed-redis checks. *)
Definition seed_token (req : request) : option string :=
  JS.or_str (req_admin_header req) (req_body_token req).

(** Every way GET /claim can end, whichever calls are rejected. *)
Inductive claim_result (cfg : config) (e : env) (w : world)
    : outcome response * world -> Prop :=
| CR_pop_failed :
    claim_result cfg e w
      (Done server_error, with_console ("claim error" :: console w) w)
| CR_no_keys k s :
    Store.sPop (rnd e) (unused_keys w) = (k, s) ->
    JS.truthy_str k = false ->
    claim_result cfg e w (Done no_keys_available, with_unused_keys s w)
| CR_insert_failed k s :
    Store.sPop (rnd e) (unused_keys w) = (Some k, s) ->
    JS.truthy_str (Some k) = true ->
    claim_result cfg e w
      (Done server_error,
       with_console ("claim error" :: console w) (with_unused_keys s w))
| CR_marker_failed k s :
    Store.sPop (rnd e) (unused_keys w) = (Some k, s) ->
    JS.truthy_str (Some k) = true ->
    issued_pages w !! uuid e = None ->
    claim_result cfg e w
      (Done server_error,
       with_console ("claim error" :: console w)
         (with_issued_pages (<[uuid e := Store.fresh_row k (now e)]> (issued_pages w))
            (with_unused_keys s w)))
| CR_issued k s :
    Store.sPop (rnd e) (unused_keys w) = (Some k, s) ->
    JS.truthy_str (Some k) = true ->
    issued_pages w !! uuid e = None ->
    claim_result cfg e w
      (Done (link_to (uuid e)),
       with_redis_strings (marker cfg (uuid e) (redis_strings w))
         (with_issued_pages (<[uuid e := Store.fresh_row k (now e)]> (issued_pages w))
            (with_unused_keys s w))).

(** Every way GET /key/:pageId can end from a quiescent world. *)
Inductive key_result (e : env) (req : request) (w : world)
    : outcome response * world -> Prop :=
| KR_unhandled : key_result e req w (Unhandled, w)
| KR_rolled_back :
    key_result e req w
      (Done server_error, with_console ("key serve error" :: console w) w)
| KR_not_found :
    issued_pages w !! req_pageId req = None ->
    key_result e req w (Done invalid_or_expired, w)
| KR_claimed r :
    issued_pages w !! req_pageId req = Some r ->
    JS.truthy_bool (used r) = true ->
    key_result e req w (Done already_claimed, w)
| KR_served r :
    issued_pages w !! req_pageId req = Some r ->
    JS.truthy_bool (used r) = false ->
    key_result e req w
      (Done (your_key (key_text r)),
       with_redis_strings (delete ("page_ttl:" +:+ req_pageId req) (redis_strings w))
         (with_issued_pages (<[req_pageId req := redeemed e req r]> (issued_pages w)) w))
| KR_lost r :
    issued_pages w !! req_pageId req = Some r ->
    JS.truthy_bool (used r) = false ->
    key_result e req w
      (Done server_error,
       with_console ("key serve error" :: console w)
         (with_issued_pages (<[req_pageId req := redeemed e req r]> (issued_pages w)) w)).

(** GET /key/:pageId when none of its transaction's calls is rejected;
    [del_fails] says whether the DEL after the commit is. *)
Definition key_answer (e : env) (req : request) (del_fails : bool) (w : world)
    : outcome response * world :=
  match issued_pages w !! req_pageId req with
  | None => (Done invalid_or_expired, w)
  | Some r =>
      if JS.truthy_bool (used r) then (Done already_claimed, w)
      else
        let w1 :=
          with_issued_pages (<[req_pageId req := redeemed e req r]> (issued_pages w)) w in
        if del_fails then
          (Done server_error, with_console ("key serve error" :: console w) w1)
        else
          (Done (your_key (key_text r)),
           with_redis_strings
             (delete ("page_ttl:" +:+ req_pageId req) (redis_strings w)) w1)
  end.

(** Every way POST /admin/seed-redis can end. *)
Inductive seed_result (cfg : config) (req : request) (w : world)
    : outcome response * world -> Prop :=
| SR_unauthorized :
    rejected (seed_token req) (ADMIN_TOKEN cfg) = true ->
    seed_result cfg req w (Done unauthorized, w)
| SR_failed :
    rejected (seed_token req) (ADMIN_TOKEN cfg) = false ->
    seed_result cfg req w
      (Done (Send 500 None "server error"),
       with_console ("seed redis error" :: console w) w)
| SR_no_keys :
    rejected (seed_token req) (ADMIN_TOKEN cfg) = false ->
    live_keys w = [] ->
    seed_result cfg req w (Done (Send 200 None "no keys in DB"), w)
| SR_seeded :
    rejected (seed_token req) (ADMIN_TOKEN cfg) = false ->
    live_keys w <> [] ->
    seed_result cfg req w
      (Done (seeded cfg (length (live_keys w))),
       with_unused_keys (unused_keys w ∪ list_to_set (live_keys w)) w).

(** Every way GET /admin/issued can end. *)
Inductive issued_result (cfg : config) (req : request) (w : world)
    : outcome response * world -> Prop :=
| IR_unauthorized :
    rejected (req_admin_header req) (ADMIN_TOKEN cfg) = true ->
    issued_result cfg req w (Done unauthorized, w)
| IR_unhandled :
    rejected (req_admin_header req) (ADMIN_TOKEN cfg) = false ->
    issued_result cfg req w (Unhandled, w)
| IR_listed :
    rejected (req_admin_header req) (ADMIN_TOKEN cfg) = false ->
    issued_result cfg req w
      (Done (JsonIssued (Store.latest_issued (issued_pages w))), w).

(** What serving requests may do to an existing row of link [id]: it
    stays, with its key_text, and once used it no longer changes. *)
Definition row_kept (id : string) (w w' : world) : Prop :=
  forall r, issued_pages w !! id = Some r ->
    exists r', issued_pages w' !! id = Some r'
      /\ key_text r' = key_text r
      /\ (JS.truthy_bool (used r) = true -> r' = r).

(** ** Requests racing on separate connections *)

Module Race.

(** A request in flight: its connection, what it draws from outside, and
    what is left of its handler. *)
Record thread := {
  conn : nat;
  tenv : env;
  code : prog response;
}.

(** The next call of a request, if its store lets it through.  No call is
    rejected here. *)
Definition step_thread (t : thread) (w : world) : option (thread * world) :=
  match code t with
  | Call o k =>
      match Store.exec (conn t) (tenv t) o w with
      | Some (r, w') => Some ({| conn := conn t; tenv := tenv t; code := k r |}, w')
      | None => None
      end
  | _ => None
  end.

Record state := {
  shared : world;
  thread_a : thread;
  thread_b : thread;
}.

(** Either request performs its next call; the stores see one call at a
    time, in any order. *)
Inductive step : state -> state -> Prop :=
| step_a w a b a' w' :
    step_thread a w = Some (a', w') ->
    step {| shared := w; thread_a := a; thread_b := b |}
         {| shared := w'; thread_a := a'; thread_b := b |}
| step_b w a b b' w' :
    step_thread b w = Some (b', w') ->
    step {| shared := w; thread_a := a; thread_b := b |}
         {| shared := w'; thread_a := a; thread_b := b' |}.

Inductive steps : nat -> state -> state -> Prop :=
| steps_O s : steps 0 s s
| steps_S n s1 s2 s3 : steps n s1 s2 -> step s2 s3 -> steps (S n) s1 s3.

(** Two GET /key requests arrive together. *)
Definition start (w : world) (c1 : nat) (e1 : env) (req1 : request)
    (c2 : nat) (e2 : env) (req2 : request) : state :=
  {| shared := w;
     thread_a := {| conn := c1; tenv := e1; code := get_key req1 |};
     thread_b := {| conn := c2; tenv := e2; code := get_key req2 |} |}.

Definition swap (s : state) : state :=
  {| shared := shared s; thread_a := thread_b s; thread_b := thread_a s |}.

(** A schedule played from a state: [true] lets request a make its next
    call, [false] request b; a request that waits for a lock or has
    returned lets its turn pass.  The number counts the calls made. *)
Definition turn (who : bool) (s : state) : option state :=
  if who then
    match step_thread (thread_a s) (shared s) with
    | Some (a', w') => Some {| shared := w'; thread_a := a'; thread_b := thread_b s |}
    | None => None
    end
  else
    match step_thread (thread_b s) (shared s) with
    | Some (b', w') => Some {| shared := w'; thread_a := thread_a s; thread_b := b' |}
    | None => None
    end.

Fixpoint play (sched : list bool) (s : state) : nat * state :=
  match sched with
  | [] => (0%nat, s)
  | who :: sched' =>
      match turn who s with
      | Some s' => let '(n, s'') := play sched' s' in (S n, s'')
      | None => play sched' s
      end
  end.

(** Where a GET /key request on an unused or used row stands: the call it
    makes next, or the answer it has returned. *)
Inductive pc : Type :=
| AtConnect
| AtBegin
| AtSelect
| AtUpdate
| AtCommit
| AtDel
| AtReleaseServed
| Served
| AtRollback
| AtReleaseClaimed
| Claimed.

(** The try/catch/finally of GET /key/:pageId around the rest of its
    try block. *)
Definition guarded (p : prog response) : prog response :=
  finally (try_catch p on_key_error) (call Release).

(** What is left of [get_key req] at each position, when the row read
    holds key_text [k]. *)
Definition prog_at (req : request) (k : string) (p : pc) : prog response :=
  let id := req_pageId req in
  match p with
  | AtConnect => get_key req
  | AtBegin => guarded (serve_key id (client_ip req) (agent req))
  | AtSelect =>
      guarded (rows <- call (SelectForUpdate id) ;;
               match rows with
               | [] => do call Rollback ;; Ret invalid_or_expired
               | (keyText, used) :: _ =>
                   if JS.truthy_bool used then
                     do call Rollback ;; Ret already_claimed
                   else
                     do call (UpdateUsed id (client_ip req) (agent req)) ;;
                     do call Commit ;;
                     do call (Del ("page_ttl:" +:+ id)) ;;
                     Ret (your_key keyText)
               end)
  | AtUpdate =>
      guarded (do call (UpdateUsed id (client_ip req) (agent req)) ;;
               do call Commit ;;
               do call (Del ("page_ttl:" +:+ id)) ;;
               Ret (your_key k))
  | AtCommit =>
      guarded (do call Commit ;;
               do call (Del ("page_ttl:" +:+ id)) ;;
               Ret (your_key k))
  | AtDel => guarded (do call (Del ("page_ttl:" +:+ id)) ;; Ret (your_key k))
  | AtReleaseServed => guarded (Ret (your_key k))
  | Served => Ret (your_key k)
  | AtRollback => guarded (do call Rollback ;; Ret already_claimed)
  | AtReleaseClaimed => guarded (Ret already_claimed)
  | Claimed => Ret already_claimed
  end.

Definition thread_at (c : nat) (e : env) (req : request) (k : string) (p : pc)
    : thread :=
  {| conn := c; tenv := e; code := prog_at req k p |}.

Definition holds_lock (p : pc) : bool :=
  match p with
  | AtUpdate | AtCommit | AtRollback => true
  | _ => false
  end.

Definition committed (p : pc) : bool :=
  match p with
  | AtDel | AtReleaseServed | Served => true
  | _ => false
  end.

Definition lost (p : pc) : bool :=
  match p with
  | AtRollback | AtReleaseClaimed | Claimed => true
  | _ => false
  end.

Definition winning (p : pc) : bool :=
  match p with
  | AtUpdate | AtCommit => true
  | _ => false
  end.

(** Positions the two requests can hold together: one lock holder, one
    winner, and a request only loses to one that has committed. *)
Definition compatible (pa pb : pc) : bool :=
  negb (holds_lock pa && holds_lock pb)
  && negb ((winning pa || committed pa) && (winning pb || committed pb))
  && implb (lost pa) (committed pb) && implb (lost pb) (committed pa).

(** The open transaction of a request at position [p]. *)
Definition txn_at (e : env) (req : request) (r : issued_page) (p : pc)
    : option (gmap string issued_page) :=
  match p with
  | AtSelect | AtUpdate | AtRollback => Some ∅
  | AtCommit => Some (<[req_pageId req := redeemed e req r]> ∅)
  | _ => None
  end.

(** A bound on the calls a request at position [p] still makes. *)
Definition remaining (p : pc) : nat :=
  match p with
  | AtConnect => 7
  | AtBegin => 6
  | AtSelect => 5
  | AtUpdate => 4
  | AtCommit => 3
  | AtDel => 2
  | AtReleaseServed => 1
  | Served => 0
  | AtRollback => 2
  | AtReleaseClaimed => 1
  | Claimed => 0
  end.

Section Invariant.

Variables (pid : string) (r : issued_page).
Variables (c1 : nat) (e1 : env) (req1 : request).
Variables (c2 : nat) (e2 : env) (req2 : request).

Definition row_at (pa pb : pc) : issued_page :=
  if committed pa then redeemed e1 req1 r
  else if committed pb then redeemed e2 req2 r
  else r.

Definition holder_at (pa pb : pc) : option nat :=
  if holds_lock pa then Some c1 else if holds_lock pb then Some c2 else None.

(** The stores and the two requests, when these stand at [pa] and [pb]. *)
Record inv (pa pb : pc) (s : state) : Prop := {
  inv_compatible : compatible pa pb = true;
  inv_a : thread_a s = thread_at c1 e1 req1 (key_text r) pa;
  inv_b : thread_b s = thread_at c2 e2 req2 (key_text r) pb;
  inv_txn_a : txns (shared s) !! c1 = txn_at e1 req1 r pa;
  inv_txn_b : txns (shared s) !! c2 = txn_at e2 req2 r pb;
  inv_lock : locks (shared s) !! pid = holder_at pa pb;
  inv_row : issued_pages (shared s) !! pid = Some (row_at pa pb);
}.

End Invariant.

End Race.

(** ** A small deployment to run the handlers on *)

Module Demo.

Definition cfg : config :=
  {| KEY_SET := "unused_keys"; CLAIM_TTL_SECONDS := 600; ADMIN_TOKEN := Some "s3cret" |}.

Definition catalog : list key_row :=
  [ {| k_key_text := "K1"; k_deprecated := Some false |};
    {| k_key_text := "K2"; k_deprecated := Some true |};
    {| k_key_text := "K3"; k_deprecated := None |} ].

Definition visitor (addr id : string) : request :=
  {| req_ip := Some addr; req_remoteAddress := None; req_user_agent := Some "curl/8";
     req_admin_header := None; req_body_token := None; req_pageId := id |}.

Definition admin : request :=
  {| req_ip := Some "10.0.0.9"; req_remoteAddress := None; req_user_agent := None;
     req_admin_header := Some "s3cret"; req_body_token := None; req_pageId := "" |}.

Definition intruder : request :=
  {| req_ip := Some "10.6.6.6"; req_remoteAddress := None; req_user_agent := None;
     req_admin_header := Some "guess"; req_body_token := Some "s3cret"; req_pageId := "" |}.

Definition at_time (t : Z) (r : nat) (id : string) : env :=
  {| rnd := r; uuid := id; now := t |}.

(** Nothing seeded yet. *)
Definition fresh : world :=
  {| unused_keys := ∅; redis_strings := ∅; keys := catalog; issued_pages := ∅;
     txns := ∅; locks := ∅; console := [] |}.

(** After the admin has seeded the pool. *)
Definition stocked : world :=
  {| unused_keys := {[ "K1" ]}; redis_strings := ∅; keys := catalog;
     issued_pages := ∅; txns := ∅; locks := ∅; console := [] |}.

(** After link L1 has been issued for K1. *)
Definition issued : world :=
  {| unused_keys := ∅; redis_strings := {[ "page_ttl:L1" := (600, "1") ]};
     keys := catalog; issued_pages := {[ "L1" := Store.fresh_row "K1" 100 ]};
     txns := ∅; locks := ∅; console := [] |}.

(** A pool that holds the empty string next to a real key. *)
Definition with_blank : world :=
  {| unused_keys := {[ ""; "K1" ]}; redis_strings := ∅; keys := catalog;
     issued_pages := ∅; txns := ∅; locks := ∅; console := [] |}.

Definition claim_ev (t : Z) (id : string) (faults : list bool) : event :=
  {| ev_route := GET_claim; ev_req := visitor "10.0.0.1" ""; ev_conn := 0;
     ev_env := at_time t 0 id; ev_faults := faults |}.

Definition key_ev (t : Z) (addr id : string) (faults : list bool) : event :=
  {| ev_route := GET_key; ev_req := visitor addr id; ev_conn := 0;
     ev_env := at_time t 0 ""; ev_faults := faults |}.

(** Two visitors open /key/L1 at once. *)
Definition race : Race.state :=
  Race.start issued 1 (at_time 200 0 "") (visitor "10.0.0.1" "L1")
                    2 (at_time 201 0 "") (visitor "10.0.0.2" "L1").

Definition schedule : list bool :=
  [true; false; true; false; false; true; true; false; true; true; false;
   false; false; true; true; true; false; false].

End Demo.

(** ** More of server.js: what the other properties speak of *)

(** The five characters escapeHtml replaces. *)
Definition html_special (c : ascii) : bool :=
  Ascii.eqb c "&" || Ascii.eqb c "<" || Ascii.eqb c ">" || Ascii.eqb c dq
  || Ascii.eqb c "'".

Fixpoint chars (s : string) : list ascii :=
  match s with
  | EmptyString => []
  | String c s' => c :: chars s'
  end.

(** The request is anything but POST /admin/seed-redis. *)
Definition not_refill (ev : event) : bool :=
  match ev_route ev with
  | POST_admin_seed_redis => false
  | _ => true
  end.

(** The request is a GET /claim answered with the redirect to /key/[id]. *)
Definition issued_link (id : string) (ev : event) (o : outcome response) : bool :=
  match ev_route ev, o with
  | GET_claim, Done (Redirect location) => String.eqb location ("/key/" +:+ id)
  | _, _ => false
  end.


(** ** The seeding scripts (seed_keys.js, seed_redis_from_db.js) *)

Module Scripts.

Definition cr : ascii := "013"%char.
Definition lf : ascii := "010"%char.

(** [raw.split(/\r?\n/)]: the text is cut at every line feed, and a
    carriage return right before the line feed goes with it. *)
Fixpoint split_lines (s : string) : list string :=
  match s with
  | EmptyString => [""]
  | String c s1 =>
      if Ascii.eqb c lf then "" :: split_lines s1
      else
        match s1 with
        | String d s2 =>
            if Ascii.eqb c cr && Ascii.eqb d lf then "" :: split_lines s2
            else
              match split_lines s1 with
              | p :: ps => String c p :: ps
              | [] => [String c ""]
              end
        | EmptyString => [String c ""]
        end
  end.

(** [lines.join('\n')] *)
Fixpoint join_lines (l : list string) : string :=
  match l with
  | [] => ""
  | [p] => p
  | p :: l' => p +:+ String lf (join_lines l')
  end.

(** How a script ends: it logs its count, exits early with a message, or
    dies on a rejected promise. *)
Inductive script_end : Type :=
| Finished (count : nat)
| Exited (message : string)
| Crashed.

(** INSERT INTO keys(key_text) VALUES($1) ON CONFLICT DO NOTHING: key_text
    is UNIQUE, a new row takes the default deprecated = false. *)
Definition insert_key (k : string) (tbl : list key_row) : list key_row :=
  if bool_decide (k ∈ k_key_text <$> tbl) then tbl
  else tbl ++ [{| k_key_text := k; k_deprecated := Some false |}].

(** The loop of seed_keys.js: a rejected INSERT is caught and logged with
    its key, and the loop goes on. *)
Fixpoint insert_all (ks : list string) (faults : list bool) (tbl : list key_row)
    (errors : list string) : list key_row * list string :=
  match ks with
  | [] => (tbl, errors)
  | k :: ks' =>
      if hd false faults then insert_all ks' (tl faults) tbl (k :: errors)
      else insert_all ks' (tl faults) (insert_key k tbl) errors
  end.

Section SeedKeys.

(** [String.prototype.trim], a built-in the script applies to each line. *)
Variable trim : string -> string.

(** [raw.split(/\r?\n/).map(s => s.trim()).filter(Boolean)] *)
Definition parse_keys (raw : string) : list string :=
  filter (fun s => s ≠ "") (trim <$> split_lines raw).

(** seed_keys.js.  [file] is the content of ./initial_keys.txt, if the file
    can be read; the first fault flag is for pool.connect(), the others for
    the INSERTs in turn.  The result gives the end of the script, the keys
    table and the keys logged with 'insert-err'. *)
Definition seed_keys (file : option string) (faults : list bool) (tbl : list key_row)
    : script_end * list key_row * list string :=
  if hd false faults then (Crashed, tbl, [])
  else
    match file with
    | None => (Crashed, tbl, [])
    | Some raw =>
        let keys := parse_keys raw in
        let '(tbl', errors) := insert_all keys (tl faults) tbl [] in
        (Finished (length keys), tbl', errors)
    end.

End SeedKeys.

Definition with_keys (tbl : list key_row) (w : world) : world :=
  {| unused_keys := unused_keys w; redis_strings := redis_strings w; keys := tbl;
     issued_pages := issued_pages w; txns := txns w; locks := locks w;
     console := console w |}.

(** seed_redis_from_db.js.  The fault flags are for redis.connect(),
    pg.query, multi.exec(), redis.quit() and pg.end(), in this order. *)
Definition seed_redis_from_db (faults : list bool) (w : world) : script_end * world :=
  if default false (faults !! 0%nat) then (Crashed, w)
  else if default false (faults !! 1%nat) then (Crashed, w)
  else
    let rows := k_key_text <$> filter (fun k => Store.live_key k = true) (keys w) in
    if (length rows =? 0)%nat then (Exited "no keys found in DB", w)
    else if default false (faults !! 2%nat) then (Crashed, w)
    else
      let w' := with_unused_keys (unused_keys w ∪ list_to_set rows) w in
      if default false (faults !! 3%nat) || default false (faults !! 4%nat)
      then (Crashed, w')
      else (Finished (length rows), w').

End Scripts.

(** ** The stores during a race of two requests for one link *)

(** The request has deleted the marker of the link. *)
Definition past_del (p : Race.pc) : bool :=
  match p with
  | Race.AtReleaseServed | Race.Served => true
  | _ => false
  end.

(** What two racing GET /key requests for [pid], on connections [c1] and
    [c2] and standing at [pa] and [pb], have left of the stores [w] they
    started from: everything but the row, the lock and the marker of
    [pid] and their own transactions. *)
Record frame (w : world) (pid : string) (c1 c2 : nat) (pa pb : Race.pc)
    (s : Race.state) : Prop := {
  frame_pool : unused_keys (Race.shared s) = unused_keys w;
  frame_keys : keys (Race.shared s) = keys w;
  frame_console : console (Race.shared s) = console w;
  frame_rows : forall i, i ≠ pid ->
    issued_pages (Race.shared s) !! i = issued_pages w !! i;
  frame_txns : forall c, c ≠ c1 -> c ≠ c2 -> txns (Race.shared s) !! c = None;
  frame_locks : forall i, i ≠ pid -> locks (Race.shared s) !! i = None;
  frame_strings :
    redis_strings (Race.shared s)
    = if past_del pa || past_del pb
      then delete ("page_ttl:" +:+ pid) (redis_strings w)
      else redis_strings w;
}.

(** * Proofs *)

(** ** Stores *)


Lemma sPop_Some r s k s' :
  Store.sPop r s = (Some k, s') -> k ∈ s /\ s' = s ∖ {[ k ]}.
Proof.
  unfold Store.sPop.
  destruct (elements s !! (r mod length (elements s))%nat) as [k0|] eqn:Hk; [|done].
  intros [= <- <-]. split; [|done].
  apply elem_of_elements. by eapply list_elem_of_lookup_2.
Qed.

Lemma sPop_None r s s' :
  Store.sPop r s = (None, s') -> s = ∅ /\ s' = s.
Proof.
  unfold Store.sPop.
  destruct (elements s !! (r mod length (elements s))%nat) as [k0|] eqn:Hk; [done|].
  intros [= <-]. split; [|done].
  apply lookup_ge_None in Hk.
  destruct (elements s) as [|x l] eqn:He.
  - by apply elements_empty_inv in He; apply leibniz_equiv in He.
  - exfalso. pose proof (Nat.mod_upper_bound r (length (x :: l))) as Hb.
    cbn [length] in *. lia.
Qed.

(** Every member can be the one SPOP picks. *)
Lemma sPop_any s k :
  k ∈ s -> exists r, Store.sPop r s = (Some k, s ∖ {[ k ]}).
Proof.
  intros Hk. apply elem_of_elements, list_elem_of_lookup in Hk as [i Hi].
  exists i. unfold Store.sPop.
  rewrite Nat.mod_small by (by eapply lookup_lt_Some). by rewrite Hi.
Qed.

Lemma release_own (c : nat) (id : string) : Store.release_locks c (<[id := c]> ∅) = ∅.
Proof.
  unfold Store.release_locks.
  rewrite map_filter_insert_False by (simpl; tauto).
  by rewrite delete_empty, map_filter_empty.
Qed.

Lemma lookup_release_own (c : nat) (id : string) (l : gmap string nat) :
  l !! id = Some c -> Store.release_locks c l !! id = None.
Proof.
  intros H. unfold Store.release_locks. apply map_lookup_filter_None.
  right. intros x Hx. simpl. rewrite H in Hx. injection Hx as <-. tauto.
Qed.

Lemma lookup_release_other (c : nat) (id : string) (l : gmap string nat) :
  l !! id ≠ Some c -> Store.release_locks c l !! id = l !! id.
Proof.
  intros H. unfold Store.release_locks.
  destruct (l !! id) as [c'|] eqn:Hl.
  - apply map_lookup_filter_Some. split; [done|]. simpl. congruence.
  - apply map_lookup_filter_None. by left.
Qed.

Lemma commit_singleton (id : string) (r : issued_page) (m : gmap string issued_page) :
  <[id := r]> ∅ ∪ m = <[id := r]> m.
Proof. by rewrite insert_empty, <- insert_union_singleton_l. Qed.

Lemma with_unused_keys_id w : with_unused_keys (unused_keys w) w = w.
Proof. by destruct w. Qed.

(** ** Running a handler call by call *)

Ltac wnorm :=
  cbv beta iota delta
    [with_unused_keys with_redis_strings with_issued_pages with_txns with_locks
     with_console unused_keys redis_strings keys issued_pages txns locks console
     Store.visible Store.locked_by_other Store.take_lock Store.write_row
     Store.end_txn].

Ltac wrew :=
  repeat (first
    [ rewrite lookup_empty
    | rewrite lookup_insert_eq
    | rewrite delete_insert_eq
    | rewrite delete_empty
    | rewrite release_own
    | rewrite commit_singleton
    | rewrite Nat.eqb_refl
    | rewrite (left_id_L (∅ : gmap string issued_page) (∪))
    | rewrite map_filter_empty
    | rewrite insert_insert_eq ]).

Ltac run_step :=
  repeat (progress (
    cbn [run bind try_catch finally call swallow faultable andb negb hd tl
         Store.exec fst snd default from_option id];
    wnorm; wrew)).

(** Run to the end, splitting on each fault flag the run consults. *)
Ltac run_all fs :=
  repeat (run_step;
    match goal with
    | |- context [hd false fs] => destruct fs as [|[|] fs]
    | H : ?x = _ |- context [match ?x with _ => _ end] => rewrite H
    | H : ?x = _ |- context [if ?x then _ else _] => rewrite H
    | H : ?x = _ |- context [negb ?x] => rewrite H
    end).

(** The same when [H : calm n fs = true] rules the rejections out. *)
Ltac run_calm fs H :=
  repeat (run_step;
    match goal with
    | |- context [hd false fs] =>
        destruct fs as [|[|] fs]; cbn [calm negb andb] in H; try discriminate H
    | H' : ?x = _ |- context [match ?x with _ => _ end] => rewrite H'
    | H' : ?x = _ |- context [if ?x then _ else _] => rewrite H'
    | H' : ?x = _ |- context [negb ?x] => rewrite H'
    end).

Lemma get_claim_cases cfg c e fs w :
  claim_result cfg e w (run c e (get_claim cfg) fs w).
Proof.
  destruct w as [ks rs kk ip tx lk cs].
  unfold get_claim.
  destruct (Store.sPop (rnd e) ks) as [k s] eqn:Hpop.
  destruct k as [k|]; [destruct (JS.truthy_str (Some k)) eqn:Hk|].
  1: destruct (ip !! uuid e) eqn:Hid.
  all: run_all fs; run_step.
  all: try (by constructor); try (by econstructor; eauto).
Qed.

Lemma claim_calm cfg c e fs w k s :
  calm 3 fs = true ->
  Store.sPop (rnd e) (unused_keys w) = (k, s) ->
  run c e (get_claim cfg) fs w =
    if JS.truthy_str k then
      match k, issued_pages w !! uuid e with
      | Some key, None =>
          (Done (link_to (uuid e)),
           with_redis_strings (marker cfg (uuid e) (redis_strings w))
             (with_issued_pages (<[uuid e := Store.fresh_row key (now e)]> (issued_pages w))
                (with_unused_keys s w)))
      | _, _ =>
          (Done server_error,
           with_console ("claim error" :: console w) (with_unused_keys s w))
      end
    else (Done no_keys_available, with_unused_keys s w).
Proof.
  intros Hc Hpop. unfold get_claim, marker.
  destruct w as [ks rs kk ip tx lk cs]. cbn [unused_keys issued_pages] in *.
  destruct k as [k|]; [destruct (JS.truthy_str (Some k)) eqn:Hk|].
  1: destruct (ip !! uuid e) eqn:Hid.
  all: run_calm fs Hc; run_step; try reflexivity.
Qed.

(** A popped value that is falsy ends the request with "No keys
    available", whatever the pool held. *)
Lemma claim_falsy cfg c e fs w k s :
  hd false fs = false ->
  Store.sPop (rnd e) (unused_keys w) = (k, s) ->
  JS.truthy_str k = false ->
  run c e (get_claim cfg) fs w = (Done no_keys_available, with_unused_keys s w).
Proof.
  intros Hf Hp Hk.
  assert (calm 1 fs = true) as Hc by (destruct fs as [|[] fs]; done).
  unfold get_claim.
  destruct w as [ks rs kk ip tx lk cs]. cbn [unused_keys] in Hp.
  run_calm fs Hc; run_step; reflexivity.
Qed.

Lemma get_key_cases c e req fs w :
  quiescent w -> key_result e req w (run c e (get_key req) fs w).
Proof.
  destruct w as [ks rs kk ip tx lk cs]. intros [Ht Hl]; simpl in Ht, Hl; subst tx lk.
  unfold get_key, serve_key, on_key_error.
  destruct (ip !! req_pageId req) as [r|] eqn:Hr;
    [destruct (JS.truthy_bool (used r)) eqn:Hu|].
  all: run_all fs; run_step.
  all: try (by constructor); try (by econstructor; eauto).
Qed.

Lemma get_key_calm c e req fs w :
  quiescent w -> calm 5 fs = true ->
  run c e (get_key req) fs w = key_answer e req (hd false (drop 5 fs)) w.
Proof.
  destruct w as [ks rs kk ip tx lk cs]. intros [Ht Hl] Hc; simpl in Ht, Hl; subst tx lk.
  unfold get_key, serve_key, on_key_error, key_answer. cbn [issued_pages].
  destruct (ip !! req_pageId req) as [r|] eqn:Hr;
    [destruct (JS.truthy_bool (used r)) eqn:Hu|].
  all: run_calm fs Hc; run_step; cbn [drop hd]; try reflexivity.
Qed.

Lemma seed_cases cfg c e req fs w :
  seed_result cfg req w (run c e (post_admin_seed_redis cfg req) fs w).
Proof.
  unfold post_admin_seed_redis. fold (seed_token req).
  destruct (rejected (seed_token req) (ADMIN_TOKEN cfg)) eqn:Hrej.
  { by constructor. }
  pose proof (eq_refl (live_keys w)) as HL. revert HL.
  generalize (live_keys w) at 1. intros L HL.
  destruct w as [ks rs kk ip tx lk cs].
  unfold live_keys in HL; cbn [keys] in HL.
  destruct (length L =? 0)%nat eqn:Hlen.
  all: run_all fs; run_step.
  all: try (by constructor).
  all: rewrite <- ?HL, ?Hlen; run_all fs; run_step.
  all: try (by constructor).
  all: try (apply SR_no_keys; [done|]; unfold live_keys; cbn [keys];
            rewrite <- HL; destruct L; [done | discriminate]).
  all: rewrite HL; apply (SR_seeded cfg req); [done|]; unfold live_keys; cbn [keys];
       rewrite <- HL; destruct L; [discriminate | done].
Qed.

Lemma seed_calm cfg c e req fs w :
  rejected (seed_token req) (ADMIN_TOKEN cfg) = false -> calm 2 fs = true ->
  run c e (post_admin_seed_redis cfg req) fs w =
    if (length (live_keys w) =? 0)%nat then (Done (Send 200 None "no keys in DB"), w)
    else (Done (seeded cfg (length (live_keys w))),
          with_unused_keys (unused_keys w ∪ list_to_set (live_keys w)) w).
Proof.
  intros Hrej Hc. unfold post_admin_seed_redis. fold (seed_token req). rewrite Hrej.
  unfold live_keys. destruct w as [ks rs kk ip tx lk cs]. cbn [keys unused_keys].
  destruct (length (k_key_text <$> filter (fun k => Store.live_key k = true) kk) =? 0)%nat
    eqn:Hlen.
  all: run_calm fs Hc; run_step; try reflexivity.
Qed.

Lemma issued_cases cfg c e req fs w :
  issued_result cfg req w (run c e (get_admin_issued cfg req) fs w).
Proof.
  destruct w as [ks rs kk ip tx lk cs].
  unfold get_admin_issued.
  destruct (rejected (req_admin_header req) (ADMIN_TOKEN cfg)) eqn:Hrej.
  { by constructor. }
  run_all fs; run_step.
  all: try (by constructor); try (by econstructor; eauto).
Qed.

Lemma rejected_absent_or_wrong token admin :
  token = None \/ token ≠ admin -> rejected token admin = true.
Proof.
  unfold rejected. intros [-> | Hne]; [done|].
  rewrite bool_decide_eq_false_2 by done. by rewrite orb_true_r.
Qed.

Lemma live_key_listed w k :
  k ∈ keys w -> k_deprecated k = Some false -> k_key_text k ∈ live_keys w.
Proof.
  intros Hk Hd. unfold live_keys. apply list_elem_of_fmap. exists k. split; [done|].
  apply list_elem_of_filter. split; [|done]. unfold Store.live_key. by rewrite Hd.
Qed.

(** An authorised refill whose calls go through puts every live key of
    the catalog into the pool. *)
Lemma seed_stocks cfg c e req fs w k :
  rejected (seed_token req) (ADMIN_TOKEN cfg) = false -> calm 2 fs = true ->
  k ∈ keys w -> k_deprecated k = Some false ->
  k_key_text k ∈ unused_keys (snd (run c e (post_admin_seed_redis cfg req) fs w)).
Proof.
  intros Hrej Hc Hk Hd. rewrite (seed_calm cfg c e req fs w Hrej Hc).
  pose proof (live_key_listed w k Hk Hd) as Hin.
  destruct (length (live_keys w) =? 0)%nat eqn:Hlen.
  - destruct (live_keys w); [|discriminate]. by apply elem_of_nil in Hin.
  - cbn [snd unused_keys with_unused_keys].
    by apply elem_of_union_r, elem_of_list_to_set.
Qed.

(** ** Runs of requests *)

Lemma row_kept_refl id w : row_kept id w w.
Proof. intros r Hr. by exists r. Qed.

Lemma row_kept_trans id w1 w2 w3 :
  row_kept id w1 w2 -> row_kept id w2 w3 -> row_kept id w1 w3.
Proof.
  intros H12 H23 r Hr.
  destruct (H12 r Hr) as (r2 & Hr2 & Hk2 & Hu2).
  destruct (H23 r2 Hr2) as (r3 & Hr3 & Hk3 & Hu3).
  exists r3. repeat split; [done | congruence |].
  intros Hu. specialize (Hu2 Hu). subst r2. by apply Hu3.
Qed.

Lemma consumed_kept id w w' :
  row_kept id w w' -> consumed id w = true -> consumed id w' = true.
Proof.
  unfold consumed. intros Hk Hc.
  destruct (issued_pages w !! id) as [r|] eqn:Hr; [|done].
  destruct (Hk r Hr) as (r' & -> & _ & Hu). by rewrite (Hu Hc).
Qed.

Lemma serve_cases cfg ev w :
  quiescent w ->
  match ev_route ev with
  | GET_health => serve cfg ev w = (Done JsonHealth, w)
  | GET_claim => claim_result cfg (ev_env ev) w (serve cfg ev w)
  | GET_key => key_result (ev_env ev) (ev_req ev) w (serve cfg ev w)
  | POST_admin_seed_redis => seed_result cfg (ev_req ev) w (serve cfg ev w)
  | GET_admin_issued => issued_result cfg (ev_req ev) w (serve cfg ev w)
  end.
Proof.
  intros Hq. unfold serve. destruct (ev_route ev); cbn [handler].
  - reflexivity.
  - apply get_claim_cases.
  - by apply get_key_cases.
  - apply seed_cases.
  - apply issued_cases.
Qed.

Lemma serve_quiescent cfg ev w :
  quiescent w -> quiescent (serve cfg ev w).2.
Proof.
  intros Hq. pose proof (serve_cases cfg ev w Hq) as H.
  destruct (ev_route ev).
  - by rewrite H.
  - by destruct H.
  - by destruct H.
  - by destruct H.
  - by destruct H.
Qed.

Lemma serve_row_kept cfg ev id w :
  quiescent w -> row_kept id w (serve cfg ev w).2.
Proof.
  intros Hq. pose proof (serve_cases cfg ev w Hq) as H.
  destruct (ev_route ev).
  - rewrite H. apply row_kept_refl.
  - destruct H; cbn [snd]; try apply row_kept_refl.
    all: intros r Hr; cbn [issued_pages with_console with_issued_pages
                            with_unused_keys with_redis_strings].
    all: try by exists r.
    all: exists r; rewrite lookup_insert_ne by congruence; done.
  - destruct H; cbn [snd]; try apply row_kept_refl.
    all: intros r0 Hr0; cbn [issued_pages with_console with_issued_pages
                            with_unused_keys with_redis_strings].
    all: try by exists r0.
    all: destruct (decide (req_pageId (ev_req ev) = id)) as [Heq|Hne];
      [ rewrite Heq in *; rewrite lookup_insert_eq;
        assert (r0 = r) as -> by congruence;
        eexists; split; [done|]; split; [reflexivity | intros; congruence]
      | rewrite lookup_insert_ne by done; by exists r0 ].
  - destruct H; cbn [snd]; intros r Hr; by exists r.
  - destruct H; cbn [snd]; intros r Hr; by exists r.
Qed.

Lemma serve_all_quiescent cfg evs w :
  quiescent w -> quiescent (serve_all cfg evs w).2.
Proof.
  revert w. induction evs as [|ev evs IH]; intros w Hq; cbn [serve_all]; [done|].
  pose proof (serve_quiescent cfg ev w Hq) as H1.
  destruct (serve cfg ev w) as [o w1]. specialize (IH w1 H1).
  by destruct (serve_all cfg evs w1).
Qed.

Lemma serve_all_row_kept cfg evs id w :
  quiescent w -> row_kept id w (serve_all cfg evs w).2.
Proof.
  revert w. induction evs as [|ev evs IH]; intros w Hq; cbn [serve_all].
  { apply row_kept_refl. }
  pose proof (serve_quiescent cfg ev w Hq) as H1.
  pose proof (serve_row_kept cfg ev id w Hq) as H2.
  destruct (serve cfg ev w) as [o w1]. specialize (IH w1 H1).
  destruct (serve_all cfg evs w1). eapply row_kept_trans; eauto.
Qed.

(** The key page is only sent by the request that marks the row used. *)
Lemma serve_delivery cfg ev id w :
  quiescent w ->
  key_served id ev (serve cfg ev w).1 = true ->
  exists r,
    issued_pages w !! id = Some r
    /\ consumed id w = false
    /\ consumed id (serve cfg ev w).2 = true
    /\ (serve cfg ev w).1 = Done (your_key (key_text r)).
Proof.
  intros Hq Hs. pose proof (serve_cases cfg ev w Hq) as H.
  unfold key_served in Hs.
  destruct (ev_route ev); try done.
  destruct H; cbn [fst snd] in *; try done.
  apply andb_true_iff in Hs as [_ Hs]. apply String.eqb_eq in Hs. subst id.
  exists r. unfold consumed.
  cbn [issued_pages with_redis_strings with_issued_pages].
  rewrite lookup_insert_eq, H. by repeat split.
Qed.

Lemma deliveries_consumed cfg id evs w :
  quiescent w -> consumed id w = true -> deliveries cfg id evs w = 0%nat.
Proof.
  revert w. induction evs as [|ev evs IH]; intros w Hq Hc; cbn [deliveries]; [done|].
  pose proof (serve_quiescent cfg ev w Hq) as H1.
  pose proof (consumed_kept id _ _ (serve_row_kept cfg ev id w Hq) Hc) as H2.
  destruct (key_served id ev (serve cfg ev w).1) eqn:Hs.
  { destruct (serve_delivery cfg ev id w Hq Hs) as (r & _ & Hf & _). congruence. }
  destruct (serve cfg ev w) as [o w1]. cbn [fst snd] in *. rewrite Hs.
  by rewrite IH.
Qed.

Lemma deliveries_le_1 cfg id evs w :
  quiescent w -> (deliveries cfg id evs w <= 1)%nat.
Proof.
  revert w. induction evs as [|ev evs IH]; intros w Hq; cbn [deliveries]; [lia|].
  pose proof (serve_quiescent cfg ev w Hq) as H1.
  destruct (key_served id ev (serve cfg ev w).1) eqn:Hs.
  - destruct (serve_delivery cfg ev id w Hq Hs) as (r & _ & _ & Hc & _).
    destruct (serve cfg ev w) as [o w1]. cbn [fst snd] in *. rewrite Hs.
    rewrite deliveries_consumed by done. lia.
  - destruct (serve cfg ev w) as [o w1]. cbn [fst snd] in *. rewrite Hs.
    specialize (IH w1 H1). lia.
Qed.

(** ** The key page determines the key *)

Lemma append_inj_l (p a b : string) : p +:+ a = p +:+ b -> a = b.
Proof. induction p as [|c p IH]; cbn [String.append]; [done|]. intros [= H]. auto. Qed.

Lemma length_append (a b : string) :
  String.length (a +:+ b) = (String.length a + String.length b)%nat.
Proof. induction a as [|c a IH]; simpl; [done | by f_equal]. Qed.

Lemma append_inj_r (s a b : string) : a +:+ s = b +:+ s -> a = b.
Proof.
  revert b. induction a as [|c a IH]; intros [|d b] H.
  - done.
  - apply (f_equal String.length) in H. rewrite !length_append in H.
    cbn [String.length] in H. lia.
  - apply (f_equal String.length) in H. rewrite !length_append in H.
    cbn [String.length] in H. lia.
  - cbn [String.append] in H. injection H as -> H. f_equal. by apply IH.
Qed.

Lemma escape_char_cases c :
  (c = "&"%char /\ escape_char c = "&amp;")
  \/ (c = "<"%char /\ escape_char c = "&lt;")
  \/ (c = ">"%char /\ escape_char c = "&gt;")
  \/ (c = dq /\ escape_char c = "&quot;")
  \/ (c = "'"%char /\ escape_char c = "&#39;")
  \/ (c ≠ "&"%char /\ escape_char c = String c "").
Proof.
  unfold escape_char.
  destruct (Ascii.eqb c "&") eqn:H1; [apply Ascii.eqb_eq in H1; tauto|].
  destruct (Ascii.eqb c "<") eqn:H2; [apply Ascii.eqb_eq in H2; tauto|].
  destruct (Ascii.eqb c ">") eqn:H3; [apply Ascii.eqb_eq in H3; tauto|].
  destruct (Ascii.eqb c dq) eqn:H4; [apply Ascii.eqb_eq in H4; tauto|].
  destruct (Ascii.eqb c "'") eqn:H5; [apply Ascii.eqb_eq in H5; tauto|].
  apply Ascii.eqb_neq in H1. tauto.
Qed.

Lemma escapeHtml_inj a b : escapeHtml a = escapeHtml b -> a = b.
Proof.
  revert b. induction a as [|c a IH]; intros [|d b]; cbn [escapeHtml].
  - done.
  - destruct (escape_char_cases d) as [[_ ->]|[[_ ->]|[[_ ->]|[[_ ->]|[[_ ->]|[_ ->]]]]]];
      discriminate.
  - destruct (escape_char_cases c) as [[_ ->]|[[_ ->]|[[_ ->]|[[_ ->]|[[_ ->]|[_ ->]]]]]];
      discriminate.
  - destruct (escape_char_cases c) as [[-> ->]|[[-> ->]|[[-> ->]|[[-> ->]|[[-> ->]|[Hc ->]]]]]];
    destruct (escape_char_cases d) as [[-> ->]|[[-> ->]|[[-> ->]|[[-> ->]|[[-> ->]|[Hd ->]]]]]];
      cbn [String.append]; intros H; try discriminate H;
      try (injection H as H; f_equal; by apply IH);
      try (injection H as H1 H; first [congruence | subst; f_equal; by apply IH]).
Qed.

Lemma your_key_inj k k' : your_key k = your_key k' -> k = k'.
Proof.
  unfold your_key, key_page. intros [= H].
  repeat (apply append_inj_l in H).
  apply append_inj_r in H. by apply escapeHtml_inj.
Qed.

(** ** Two requests for the same link *)

Section RaceProofs.

Import Race.

Lemma steps_step n s1 s2 s3 : step s1 s2 -> steps n s2 s3 -> steps (S n) s1 s3.
Proof.
  intros H12 H23. induction H23 as [s|n s2 s3 s4 _ IH H34].
  - eapply steps_S; [apply steps_O | done].
  - eapply steps_S; [by apply IH | done].
Qed.

Lemma turn_step who s s' : turn who s = Some s' -> step s s'.
Proof.
  destruct s as [w a b]. unfold turn. cbn [thread_a thread_b shared].
  destruct who.
  - destruct (step_thread a w) as [[a' w']|] eqn:H; [|done].
    intros [= <-]. by apply step_a.
  - destruct (step_thread b w) as [[b' w']|] eqn:H; [|done].
    intros [= <-]. by apply step_b.
Qed.

(** Playing a schedule is one of the interleavings. *)
Lemma play_steps sched s : steps (play sched s).1 s (play sched s).2.
Proof.
  revert s. induction sched as [|who sched IH]; intros s; cbn [play].
  - apply steps_O.
  - destruct (turn who s) as [s'|] eqn:Ht; [|apply IH].
    specialize (IH s'). destruct (play sched s') as [n s''].
    eapply steps_step; [by apply (turn_step who) | done].
Qed.

Lemma compatible_sym pa pb : compatible pa pb = compatible pb pa.
Proof. by destruct pa, pb. Qed.

Lemma inv_swap pid r c1 e1 req1 c2 e2 req2 pa pb s :
  inv pid r c1 e1 req1 c2 e2 req2 pa pb s ->
  inv pid r c2 e2 req2 c1 e1 req1 pb pa (swap s).
Proof.
  intros [Hcomp Hf Hs Ht1 Ht2 Hl Hr].
  split; cbn [swap shared thread_a thread_b]; try done.
  - by rewrite compatible_sym.
  - rewrite Hl. clear - Hcomp. by destruct pa, pb.
  - rewrite Hr. clear - Hcomp. by destruct pa, pb.
Qed.

(** What one call of a request at position [p] does to the stores, and
    where the request stands afterwards. *)
Section Thread.

Variables (r : issued_page) (c : nat) (e : env) (req : request).

Local Abbreviation th := (thread_at c e req (key_text r)).
Local Abbreviation pid := (req_pageId req).

Ltac unfold_step :=
  unfold step_thread, thread_at, prog_at, guarded;
  cbn [code conn tenv finally try_catch bind call Store.exec];
  unfold Store.visible, Store.locked_by_other, Store.take_lock, Store.write_row.

Lemma step_connect w :
  step_thread (th AtConnect) w = Some (th AtBegin, w).
Proof. reflexivity. Qed.

Lemma step_begin w :
  txns w !! c = None ->
  step_thread (th AtBegin) w = Some (th AtSelect, with_txns (<[c := ∅]> (txns w)) w).
Proof.
  intros H. unfold step_thread. cbn. rewrite H. reflexivity.
Qed.

Lemma step_select w row :
  txns w !! c = Some ∅ ->
  issued_pages w !! pid = Some row ->
  key_text row = key_text r ->
  locks w !! pid = None ->
  step_thread (th AtSelect) w =
    Some (th (if JS.truthy_bool (used row) then AtRollback else AtUpdate),
          with_locks (<[pid := c]> (locks w)) w).
Proof.
  intros Ht Hrow Hk Hl. unfold_step.
  rewrite Ht. cbn [default from_option id].
  rewrite (left_id_L ∅ (∪)), Hrow, Hl, Hk.
  destruct (JS.truthy_bool (used row)) eqn:Hu; cbn [bind]; rewrite ?Hu.
  all: reflexivity.
Qed.

(** SELECT ... FOR UPDATE waits while another connection holds the row. *)
Lemma step_select_waits w row c' :
  txns w !! c = Some ∅ ->
  issued_pages w !! pid = Some row ->
  locks w !! pid = Some c' -> c' ≠ c ->
  step_thread (th AtSelect) w = None.
Proof.
  intros Ht Hrow Hl Hc. unfold_step.
  rewrite Ht. cbn [default from_option id].
  rewrite (left_id_L ∅ (∪)), Hrow, Hl.
  apply Nat.eqb_neq in Hc. by rewrite Hc.
Qed.

Lemma step_update w :
  txns w !! c = Some ∅ ->
  issued_pages w !! pid = Some r ->
  locks w !! pid = Some c ->
  step_thread (th AtUpdate) w =
    Some (th AtCommit,
          with_txns (<[c := <[pid := redeemed e req r]> ∅]> (txns w))
            (with_locks (<[pid := c]> (locks w)) w)).
Proof.
  intros Ht Hrow Hl. unfold_step.
  rewrite Ht. cbn [default from_option id].
  rewrite (left_id_L ∅ (∪)), Hrow, Hl, Nat.eqb_refl.
  cbn [negb txns with_locks]. rewrite Ht. reflexivity.
Qed.

Lemma step_commit w :
  step_thread (th AtCommit) w =
    Some (th AtDel, Store.end_txn c (with_issued_pages (Store.visible c w) w)).
Proof. reflexivity. Qed.

Lemma step_del w :
  step_thread (th AtDel) w =
    Some (th AtReleaseServed,
          with_redis_strings (delete ("page_ttl:" +:+ pid) (redis_strings w)) w).
Proof. reflexivity. Qed.

Lemma step_release_served w :
  step_thread (th AtReleaseServed) w = Some (th Served, Store.end_txn c w).
Proof. reflexivity. Qed.

Lemma step_rollback w :
  step_thread (th AtRollback) w = Some (th AtReleaseClaimed, Store.end_txn c w).
Proof. reflexivity. Qed.

Lemma step_release_claimed w :
  step_thread (th AtReleaseClaimed) w = Some (th Claimed, Store.end_txn c w).
Proof. reflexivity. Qed.

End Thread.

Ltac proj :=
  cbn [shared thread_a thread_b txns locks issued_pages with_txns with_locks
       with_issued_pages with_redis_strings Store.end_txn
       txn_at holder_at row_at holds_lock committed remaining].

Ltac lookups :=
  first
    [ done
    | match goal with
      | H : compatible _ ?p = true |- compatible _ ?p = true => by (destruct p)
      end
    | by rewrite lookup_insert_eq
    | by rewrite lookup_insert_ne
    | by rewrite lookup_delete_eq
    | by rewrite lookup_delete_ne
    | by apply lookup_release_own
    | by (rewrite lookup_release_other; [done|];
          match goal with
          | H : locks _ !! _ = _ |- _ =>
              rewrite H; destruct (holds_lock _); congruence
          end) ].

Section Pair.

Variables (pid : string) (r : issued_page).
Variables (c1 : nat) (e1 : env) (req1 : request).
Variables (c2 : nat) (e2 : env) (req2 : request).
Hypothesis Hid1 : req_pageId req1 = pid.
Hypothesis Hc : c1 ≠ c2.
Hypothesis Hunused : JS.truthy_bool (used r) = false.

Local Abbreviation Inv := (inv pid r c1 e1 req1 c2 e2 req2).

(** A call of request a keeps the invariant and uses up one of its
    remaining calls. *)
Lemma inv_step_a pa pb s a' w' :
  Inv pa pb s ->
  step_thread (thread_a s) (shared s) = Some (a', w') ->
  exists pa',
    Inv pa' pb {| shared := w'; thread_a := a'; thread_b := thread_b s |}
    /\ (remaining pa' < remaining pa)%nat.
Proof.
  intros [Hcomp Hf Hs Ht1 Ht2 Hl Hr] Hstep.
  rewrite Hf in Hstep.
  pose proof Hl as Hl'. pose proof Hr as Hr'. rewrite <- Hid1 in Hl', Hr'.
  destruct pa.
  - rewrite step_connect in Hstep. injection Hstep as <- <-.
    exists AtBegin. split; [|simpl; lia].
    split; try done.
  - rewrite step_begin in Hstep by done. injection Hstep as <- <-.
    exists AtSelect. split; [|simpl; lia].
    split; proj; lookups.
  - destruct (holds_lock pb) eqn:Hpb.
    { unfold holder_at in Hl'. cbn [holds_lock] in Hl'. rewrite Hpb in Hl'.
      erewrite step_select_waits in Hstep; eauto. discriminate. }
    unfold holder_at in Hl'. cbn [holds_lock] in Hl'. rewrite Hpb in Hl'.
    erewrite step_select in Hstep; eauto.
    2: { unfold row_at. cbn [committed]. by destruct (committed pb). }
    injection Hstep as <- <-.
    unfold row_at in *. cbn [committed] in *.
    destruct (committed pb) eqn:Hcpb.
    + exists AtRollback. split; [|simpl; lia].
      split; proj; try done; rewrite ?Hid1, ?Hcpb; lookups.
    + rewrite Hunused.
      exists AtUpdate. split; [|simpl; lia].
      split; proj; try done; rewrite ?Hid1, ?Hcpb; lookups.
  - assert (committed pb = false /\ holds_lock pb = false) as [Hcpb Hlpb]
      by (destruct pb; done).
    unfold row_at, holder_at in *. cbn [committed holds_lock] in *.
    rewrite Hcpb in *.
    rewrite step_update in Hstep by done. injection Hstep as <- <-.
    exists AtCommit. split; [|simpl; lia].
    split; proj; try done; rewrite ?Hid1, ?Hcpb; lookups.
  - assert (committed pb = false /\ holds_lock pb = false) as [Hcpb Hlpb]
      by (destruct pb; done).
    unfold row_at, holder_at in *. cbn [committed holds_lock] in *.
    rewrite step_commit in Hstep. injection Hstep as <- <-.
    exists AtDel. split; [|simpl; lia].
    split; proj; try done; rewrite ?Hid1, ?Hcpb, ?Hlpb; try lookups.
    unfold Store.visible. cbn [txn_at] in Ht1. rewrite Ht1.
    cbn [default from_option id].
    by rewrite Hid1, commit_singleton, lookup_insert_eq.
  - rewrite step_del in Hstep. injection Hstep as <- <-.
    exists AtReleaseServed. split; [|simpl; lia].
    split; proj; try done.
  - rewrite step_release_served in Hstep. injection Hstep as <- <-.
    exists Served. split; [|simpl; lia].
    unfold row_at, holder_at in *. cbn [committed holds_lock] in *.
    split; proj; lookups.
  - discriminate.
  - assert (committed pb = true /\ holds_lock pb = false) as [Hcpb Hlpb]
      by (destruct pb; done).
    unfold row_at, holder_at in *. cbn [committed holds_lock] in *.
    rewrite step_rollback in Hstep. injection Hstep as <- <-.
    exists AtReleaseClaimed. split; [|simpl; lia].
    split; proj; try done; rewrite ?Hcpb, ?Hlpb; lookups.
  - rewrite step_release_claimed in Hstep. injection Hstep as <- <-.
    exists Claimed. split; [|simpl; lia].
    unfold row_at, holder_at in *. cbn [committed holds_lock] in *.
    split; proj; lookups.
  - discriminate.
Qed.

(** Request a can make its next call unless it has returned or waits at
    its SELECT for the lock of request b. *)
Lemma can_step_a pa pb s :
  Inv pa pb s ->
  remaining pa ≠ 0%nat ->
  (pa = AtSelect -> holds_lock pb = false) ->
  exists a' w', step_thread (thread_a s) (shared s) = Some (a', w').
Proof.
  intros [Hcomp Hf Hs Ht1 Ht2 Hl Hr] Hrem Hfree.
  rewrite Hf. rewrite <- Hid1 in Hl, Hr.
  destruct pa; try done.
  - eexists _, _. apply step_connect.
  - eexists _, _. by apply step_begin.
  - specialize (Hfree eq_refl).
    unfold holder_at in Hl. cbn [holds_lock] in Hl. rewrite Hfree in Hl.
    eexists _, _. eapply step_select; eauto.
    unfold row_at. cbn [committed]. by destruct (committed pb).
  - assert (committed pb = false) as Hcpb by (destruct pb; done).
    unfold row_at, holder_at in *. cbn [committed holds_lock] in *.
    rewrite Hcpb in Hr.
    eexists _, _. by apply step_update.
  - eexists _, _. apply step_commit.
  - eexists _, _. apply step_del.
  - eexists _, _. apply step_release_served.
  - eexists _, _. apply step_rollback.
  - eexists _, _. apply step_release_claimed.
Qed.

End Pair.

Lemma inv_step_b pid r c1 e1 req1 c2 e2 req2 pa pb s b' w' :
  req_pageId req2 = pid -> c1 ≠ c2 ->
  JS.truthy_bool (used r) = false ->
  inv pid r c1 e1 req1 c2 e2 req2 pa pb s ->
  step_thread (thread_b s) (shared s) = Some (b', w') ->
  exists pb',
    inv pid r c1 e1 req1 c2 e2 req2 pa pb'
      {| shared := w'; thread_a := thread_a s; thread_b := b' |}
    /\ (remaining pb' < remaining pb)%nat.
Proof.
  intros Hid2 Hc Hu Hinv Hstep.
  apply inv_swap in Hinv.
  destruct (inv_step_a pid r c2 e2 req2 c1 e1 req1 Hid2 (not_eq_sym Hc) Hu
              pb pa (swap s) b' w' Hinv Hstep) as (pb' & Hinv' & Hlt).
  exists pb'. split; [|done].
  by apply inv_swap in Hinv'.
Qed.

(** No deadlock: unless both requests have returned, one of them can make
    its next call; and when both have, one was served and the other told
    the key is claimed. *)
Lemma inv_progress pid r c1 e1 req1 c2 e2 req2 pa pb s :
  req_pageId req1 = pid -> req_pageId req2 = pid -> c1 ≠ c2 ->
  inv pid r c1 e1 req1 c2 e2 req2 pa pb s ->
  (exists s', step s s')
  \/ (pa = Served /\ pb = Claimed) \/ (pa = Claimed /\ pb = Served).
Proof.
  intros Hid1 Hid2 Hc Hinv.
  pose proof (inv_compatible _ _ _ _ _ _ _ _ _ _ _ Hinv) as Hcomp.
  destruct s as [w a b].
  assert (Hleft : remaining pa ≠ 0%nat -> (pa = AtSelect -> holds_lock pb = false) ->
                  exists s', step {| shared := w; thread_a := a; thread_b := b |} s').
  { intros H1 H2.
    destruct (can_step_a _ _ _ _ _ _ _ _ Hid1 _ _ _ Hinv H1 H2) as (a' & w' & Hs).
    eexists. by apply step_a. }
  assert (Hright : remaining pb ≠ 0%nat -> (pb = AtSelect -> holds_lock pa = false) ->
                  exists s', step {| shared := w; thread_a := a; thread_b := b |} s').
  { intros H1 H2. apply inv_swap in Hinv.
    destruct (can_step_a _ _ _ _ _ _ _ _ Hid2 _ _ _ Hinv H1 H2) as (b' & w' & Hs).
    eexists. by apply step_b. }
  clear Hinv.
  destruct pa, pb; try discriminate Hcomp;
    first [ by (right; left) | by (right; right)
          | by (left; apply Hleft) | by (left; apply Hright) ].
Qed.

Lemma inv_start w pid r c1 e1 req1 c2 e2 req2 :
  quiescent w -> issued_pages w !! pid = Some r ->
  inv pid r c1 e1 req1 c2 e2 req2 AtConnect AtConnect
    (start w c1 e1 req1 c2 e2 req2).
Proof.
  intros [Ht Hl] Hr.
  split; cbn [start shared thread_a thread_b]; try done.
  - by rewrite Ht.
  - by rewrite Ht.
  - by rewrite Hl.
Qed.

(** Every state the race reaches satisfies the invariant, and the calls
    made so far plus those remaining never exceed fourteen. *)
Lemma inv_steps w pid r c1 e1 req1 c2 e2 req2 n s :
  quiescent w -> issued_pages w !! pid = Some r ->
  JS.truthy_bool (used r) = false -> c1 ≠ c2 ->
  req_pageId req1 = pid -> req_pageId req2 = pid ->
  steps n (start w c1 e1 req1 c2 e2 req2) s ->
  exists pa pb,
    inv pid r c1 e1 req1 c2 e2 req2 pa pb s
    /\ (n + remaining pa + remaining pb <= 14)%nat.
Proof.
  intros Hq Hr Hu Hc Hid1 Hid2 Hsteps.
  remember (start w c1 e1 req1 c2 e2 req2) as s0 eqn:Hs0.
  induction Hsteps as [s|n s1 s2 s3 Hsteps IH Hstep].
  - subst s. exists AtConnect, AtConnect. split; [by apply inv_start | simpl; lia].
  - destruct (IH Hs0) as (pa & pb & Hinv & Hle).
    destruct Hstep as [w0 a b a' w' Ha|w0 a b b' w' Hb].
    + destruct (inv_step_a _ _ _ _ _ _ _ _ Hid1 Hc Hu _ _ _ _ _ Hinv Ha)
        as (pa' & Hinv' & Hlt).
      exists pa', pb. split; [done | lia].
    + destruct (inv_step_b _ _ _ _ _ _ _ _ _ _ _ _ _ Hid2 Hc Hu Hinv Hb)
        as (pb' & Hinv' & Hlt).
      exists pa, pb'. split; [done | lia].
Qed.

End RaceProofs.

(** * The claims *)

(** C1: the [used] flag of an issued link never goes back from true, the
    key page of a link is only sent by the GET /key request that turns the
    flag from not-true to true, and so, over any run of requests served
    one after the other, the key of a link is sent at most once. *)
Theorem key_delivered_at_most_once cfg w :
  quiescent w ->
  (forall evs id,
     consumed id w = true -> consumed id (serve_all cfg evs w).2 = true)
  /\ (forall ev id,
        key_served id ev (serve cfg ev w).1 = true ->
        exists r,
          issued_pages w !! id = Some r
          /\ consumed id w = false
          /\ consumed id (serve cfg ev w).2 = true
          /\ (serve cfg ev w).1 = Done (your_key (key_text r)))
  /\ (forall evs id, (deliveries cfg id evs w <= 1)%nat).
Proof.
  intros Hq. repeat split.
  - intros evs id. apply consumed_kept. by apply serve_all_row_kept.
  - intros ev id. by apply serve_delivery.
  - intros evs id. by apply deliveries_le_1.
Qed.

Lemma key_delivered_at_most_once_witness :
  deliveries Demo.cfg "L1"
    [Demo.claim_ev 100 "L1" []; Demo.key_ev 200 "10.0.0.1" "L1" [];
     Demo.key_ev 201 "10.0.0.2" "L1" []] Demo.stocked = 1%nat
  /\ (deliveries Demo.cfg "L1"
        [Demo.claim_ev 100 "L1" []; Demo.key_ev 200 "10.0.0.1" "L1" [];
         Demo.key_ev 201 "10.0.0.2" "L1" []] Demo.stocked <= 1)%nat.
Proof.
  split; [vm_compute; reflexivity|].
  apply (key_delivered_at_most_once Demo.cfg Demo.stocked).
  split; reflexivity.
Defined.

(** C2: two GET /key requests for the same unused link race on separate
    connections, no store call being rejected.  Whatever the interleaving
    of their calls: the race takes at most fourteen calls; as long as a
    request has not returned, one of the two can make its next call (the
    one waiting at SELECT ... FOR UPDATE resumes when the row lock is
    freed); and when both have returned, exactly one was sent the key and
    the other was told the key is already claimed, the row carrying the
    stamp of the one that was served. *)
Theorem racing_redeems w pid r c1 e1 req1 c2 e2 req2 n s :
  quiescent w -> issued_pages w !! pid = Some r ->
  JS.truthy_bool (used r) = false -> c1 ≠ c2 ->
  req_pageId req1 = pid -> req_pageId req2 = pid ->
  Race.steps n (Race.start w c1 e1 req1 c2 e2 req2) s ->
  (n <= 14)%nat
  /\ ((exists s', Race.step s s')
      \/ (Race.code (Race.thread_a s) = Ret (your_key (key_text r))
          /\ Race.code (Race.thread_b s) = Ret already_claimed
          /\ issued_pages (Race.shared s) !! pid = Some (redeemed e1 req1 r))
      \/ (Race.code (Race.thread_a s) = Ret already_claimed
          /\ Race.code (Race.thread_b s) = Ret (your_key (key_text r))
          /\ issued_pages (Race.shared s) !! pid = Some (redeemed e2 req2 r))).
Proof.
  intros Hq Hr Hu Hc Hid1 Hid2 Hsteps.
  destruct (inv_steps _ _ _ _ _ _ _ _ _ _ _ Hq Hr Hu Hc Hid1 Hid2 Hsteps)
    as (pa & pb & Hinv & Hle).
  split; [lia|].
  destruct (inv_progress _ _ _ _ _ _ _ _ _ _ _ Hid1 Hid2 Hc Hinv)
    as [Hs | [[-> ->] | [-> ->]]]; [by left | right; left | right; right].
  all: destruct Hinv as [_ Hf Hs _ _ _ Hrow]; rewrite Hf, Hs; by repeat split.
Qed.

Lemma racing_redeems_witness :
  Race.code (Race.thread_a (Race.play Demo.schedule Demo.race).2) = Ret already_claimed
  /\ Race.code (Race.thread_b (Race.play Demo.schedule Demo.race).2)
       = Ret (your_key "K1")
  /\ ((Race.play Demo.schedule Demo.race).1 <= 14)%nat.
Proof.
  split; [vm_compute; reflexivity|]. split; [vm_compute; reflexivity|].
  eapply proj1.
  apply (racing_redeems Demo.issued "L1" (Store.fresh_row "K1" 100)
           1 (Demo.at_time 200 0 "") (Demo.visitor "10.0.0.1" "L1")
           2 (Demo.at_time 201 0 "") (Demo.visitor "10.0.0.2" "L1")).
  - split; reflexivity.
  - reflexivity.
  - reflexivity.
  - lia.
  - reflexivity.
  - reflexivity.
  - apply play_steps.
Defined.




(** C5, at a link that is not yet used: the row is marked used and
    committed, the DEL of the expiry marker is rejected, and the request
    answers "Server error" instead of the key; the consumption stays
    committed, so the next request for the link is told the key is already
    claimed and the key is never shown. *)
Theorem marker_delete_failure_loses_key :
  run 0 (Demo.at_time 200 0 "") (get_key (Demo.visitor "10.0.0.1" "L1"))
    [false; false; false; false; false; true] Demo.issued
  = (Done server_error,
     with_console ["key serve error"]
       (with_issued_pages
          {[ "L1" := redeemed (Demo.at_time 200 0 "") (Demo.visitor "10.0.0.1" "L1")
                       (Store.fresh_row "K1" 100) ]}
          Demo.issued))
  /\ fst (run 0 (Demo.at_time 201 0 "") (get_key (Demo.visitor "10.0.0.1" "L1")) []
            (with_console ["key serve error"]
               (with_issued_pages
                  {[ "L1" := redeemed (Demo.at_time 200 0 "")
                               (Demo.visitor "10.0.0.1" "L1")
                               (Store.fresh_row "K1" 100) ]}
                  Demo.issued)))
     = Done already_claimed.
Proof. split; vm_compute; reflexivity. Qed.

(** C6, at a pool holding K1: the key is popped and the row of link L1 is
    inserted, the SETEX of the expiry marker is rejected, and the request
    answers "Server error" instead of the redirect to /key/L1; the failure
    is logged, the row stays and the key has left the pool. *)
Theorem marker_create_failure_fails_claim :
  run 0 (Demo.at_time 100 0 "L1") (get_claim Demo.cfg) [false; false; true] Demo.stocked
  = (Done server_error,
     with_console ["claim error"]
       (with_issued_pages {[ "L1" := Store.fresh_row "K1" 100 ]}
          (with_unused_keys ∅ Demo.stocked))).
Proof. vm_compute; reflexivity. Qed.

(** C7: after an authorised refill whose calls go through, every key of
    the catalog with deprecated = false is in the pool; and when GET /claim
    pops key [k] and redirects to /key/[id], then, whatever requests are
    served in between, a GET /key/[id] that is answered with status 200 is
    answered with the key page of [k]; and the key page of a key is the
    page of no other key. *)
Theorem round_trip cfg w :
  quiescent w ->
  (forall c e req fs k,
     rejected (seed_token req) (ADMIN_TOKEN cfg) = false -> calm 2 fs = true ->
     k ∈ keys w -> k_deprecated k = Some false ->
     k_key_text k ∈ unused_keys (snd (run c e (post_admin_seed_redis cfg req) fs w)))
  /\ (forall c1 e1 fs1 k s id w1 evs c2 e2 req fs2 status cache body,
        Store.sPop (rnd e1) (unused_keys w) = (Some k, s) ->
        run c1 e1 (get_claim cfg) fs1 w = (Done (link_to id), w1) ->
        req_pageId req = id ->
        fst (run c2 e2 (get_key req) fs2 (snd (serve_all cfg evs w1)))
          = Done (Send status cache body) ->
        status = 200 ->
        Send status cache body = your_key k)
  /\ (forall k k', your_key k = your_key k' -> k = k').
Proof.
  intros Hq. split; [|split].
  - intros c e req fs k. apply seed_stocks.
  - intros c1 e1 fs1 k s id w1 evs c2 e2 req fs2 status cache body
      Hpop Hclaim Hid Hkey ->.
    pose proof (get_claim_cases cfg c1 e1 fs1 w) as Hc. rewrite Hclaim in Hc.
    inversion Hc as [| | | |k0 s0 Hpop0 Hk0 Hfresh [Hl Hw1]]; try discriminate.
    cbv [String.append] in Hl.
    rewrite Hpop in Hpop0. injection Hpop0 as <- <-.
    assert (quiescent w1) as Hq1.
    { rewrite <- Hw1. by destruct Hq. }
    assert (issued_pages w1 !! id = Some (Store.fresh_row k (now e1))) as Hrow.
    { rewrite <- Hw1, <- Hl. cbn [issued_pages with_redis_strings with_issued_pages].
      by rewrite lookup_insert_eq. }
    pose proof (serve_all_quiescent cfg evs w1 Hq1) as Hq2.
    destruct (serve_all_row_kept cfg evs id w1 Hq1 _ Hrow) as (r' & Hr' & Hk' & _).
    pose proof (get_key_cases c2 e2 req fs2 _ Hq2) as Hres.
    destruct Hres; cbn [fst] in Hkey; try discriminate Hkey.
    injection Hkey as <- <-.
    rewrite Hid, Hr' in H. injection H as <-. by rewrite Hk'.
  - apply your_key_inj.
Qed.

Lemma round_trip_witness :
  "K1" ∈ unused_keys
           (snd (run 0 (Demo.at_time 50 0 "") (post_admin_seed_redis Demo.cfg Demo.admin)
                   [] Demo.fresh))
  /\ Send 200 (Some no_store) (key_page "K1") = your_key "K1".
Proof.
  split.
  - apply (proj1 (round_trip Demo.cfg Demo.fresh (conj eq_refl eq_refl))
             0%nat (Demo.at_time 50 0 "") Demo.admin []
             {| k_key_text := "K1"; k_deprecated := Some false |}).
    + reflexivity.
    + reflexivity.
    + apply list_elem_of_here.
    + reflexivity.
  - apply (proj1 (proj2 (round_trip Demo.cfg Demo.stocked (conj eq_refl eq_refl)))
             0%nat (Demo.at_time 100 0 "L1") [] "K1" ∅ "L1" Demo.issued
             [Demo.key_ev 150 "10.0.0.3" "L7" []]
             0%nat (Demo.at_time 200 0 "") (Demo.visitor "10.0.0.1" "L1") []
             200 (Some no_store) (key_page "K1")).
    + vm_compute; reflexivity.
    + vm_compute; reflexivity.
    + reflexivity.
    + vm_compute; reflexivity.
    + reflexivity.
Defined.

(** C8: an authorised refill whose calls go through answers without
    error and leaves in the pool what was there together with every
    non-deprecated key of the catalog; where those keys are in the pool
    already it changes nothing; and a second refill right after it gives
    the same answer and leaves the stores as the first did. *)
Theorem refill_idempotent cfg c e req fs w :
  rejected (seed_token req) (ADMIN_TOKEN cfg) = false ->
  calm 2 fs = true ->
  (exists body,
     fst (run c e (post_admin_seed_redis cfg req) fs w) = Done (Send 200 None body))
  /\ unused_keys (snd (run c e (post_admin_seed_redis cfg req) fs w))
       = unused_keys w ∪ list_to_set (live_keys w)
  /\ (forall k, k ∈ keys w -> k_deprecated k = Some false ->
        k_key_text k ∈ unused_keys (snd (run c e (post_admin_seed_redis cfg req) fs w)))
  /\ ((forall k, k ∈ live_keys w -> k ∈ unused_keys w) ->
        snd (run c e (post_admin_seed_redis cfg req) fs w) = w)
  /\ (forall c' e' fs',
        calm 2 fs' = true ->
        run c' e' (post_admin_seed_redis cfg req) fs'
            (snd (run c e (post_admin_seed_redis cfg req) fs w))
          = run c e (post_admin_seed_redis cfg req) fs w).
Proof.
  intros Hrej Hc.
  assert (Hlive : forall w0 : world,
            live_keys (with_unused_keys (unused_keys w ∪ list_to_set (live_keys w)) w0)
            = live_keys w0) by done.
  split; [|split; [|split; [by intros k; apply seed_stocks|]]].
  all: rewrite (seed_calm cfg c e req fs w Hrej Hc).
  all: destruct (length (live_keys w) =? 0)%nat eqn:Hlen; cbn [fst snd].
  - by eexists.
  - by eexists.
  - destruct (live_keys w); [|discriminate].
    cbn [list_to_set foldr]. by rewrite (right_id_L ∅ (∪)).
  - done.
  - split; [done|]. intros c' e' fs' Hc'.
    rewrite (seed_calm cfg c' e' req fs' w Hrej Hc'). by rewrite Hlen.
  - split.
    + intros Hsub.
      assert (unused_keys w ∪ list_to_set (live_keys w) = unused_keys w) as ->.
      { apply set_eq. intros k. rewrite elem_of_union, elem_of_list_to_set.
        split; [intros [?|?]; auto | auto]. }
      apply with_unused_keys_id.
    + intros c' e' fs' Hc'. rewrite (seed_calm cfg c' e' req fs' _ Hrej Hc').
      rewrite Hlive, Hlen. f_equal.
      destruct w as [ks rs kk ip tx lk cs].
      unfold with_unused_keys.
      cbn [unused_keys redis_strings keys issued_pages txns locks console].
      f_equal. by rewrite <- (assoc_L (∪)), (idemp_L (∪)).
Qed.

Lemma refill_idempotent_witness :
  unused_keys
    (snd (run 0 (Demo.at_time 50 0 "") (post_admin_seed_redis Demo.cfg Demo.admin) []
            Demo.fresh))
  = unused_keys Demo.fresh ∪ list_to_set (live_keys Demo.fresh).
Proof.
  exact (proj1 (proj2 (refill_idempotent Demo.cfg 0 (Demo.at_time 50 0 "") Demo.admin
                         [] Demo.fresh eq_refl eq_refl))).
Defined.

(** C9: when the credential of an admin refill (the x-admin-token header
    or else the body token) or of an admin inspect (the header) is absent
    or differs from ADMIN_TOKEN, the handler is the bare answer
    "unauthorized" with status 401: it makes no call to either store, so
    nothing is read, and running it leaves the stores untouched. *)
Theorem unauthorized_admin_touches_nothing cfg req :
  (seed_token req = None \/ seed_token req ≠ ADMIN_TOKEN cfg ->
     post_admin_seed_redis cfg req = Ret unauthorized
     /\ forall c e fs w,
          run c e (post_admin_seed_redis cfg req) fs w = (Done unauthorized, w))
  /\ (req_admin_header req = None \/ req_admin_header req ≠ ADMIN_TOKEN cfg ->
        get_admin_issued cfg req = Ret unauthorized
        /\ forall c e fs w,
             run c e (get_admin_issued cfg req) fs w = (Done unauthorized, w)).
Proof.
  split; intros H%rejected_absent_or_wrong.
  - assert (post_admin_seed_redis cfg req = Ret unauthorized) as ->; [|done].
    unfold post_admin_seed_redis. fold (seed_token req). by rewrite H.
  - assert (get_admin_issued cfg req = Ret unauthorized) as ->; [|done].
    unfold get_admin_issued. by rewrite H.
Qed.

Lemma unauthorized_admin_touches_nothing_witness :
  post_admin_seed_redis Demo.cfg Demo.intruder = Ret unauthorized
  /\ get_admin_issued Demo.cfg Demo.intruder = Ret unauthorized.
Proof.
  split.
  - apply (proj1 (unauthorized_admin_touches_nothing Demo.cfg Demo.intruder)).
    right. discriminate.
  - apply (proj2 (unauthorized_admin_touches_nothing Demo.cfg Demo.intruder)).
    right. discriminate.
Defined.

(** C10: when the value SPOP returns is the empty string (and the call
    is not rejected), GET /claim answers "No keys available", the answer
    it gives on an empty pool; the empty string has left the pool, no row
    is written and no link is handed out. *)
Theorem empty_string_key_is_dropped cfg c e fs w s :
  Store.sPop (rnd e) (unused_keys w) = (Some "", s) ->
  hd false fs = false ->
  run c e (get_claim cfg) fs w = (Done no_keys_available, with_unused_keys s w)
  /\ "" ∈ unused_keys w
  /\ s = unused_keys w ∖ {[ "" ]}
  /\ issued_pages (with_unused_keys s w) = issued_pages w
  /\ (forall w0, unused_keys w0 = ∅ ->
        fst (run c e (get_claim cfg) fs w0) = Done no_keys_available).
Proof.
  intros Hpop Hf.
  destruct (sPop_Some _ _ _ _ Hpop) as [Hin Hs].
  repeat split; try done.
  - by apply (claim_falsy cfg c e fs w (Some "") s).
  - intros w0 H0.
    destruct (Store.sPop (rnd e) (unused_keys w0)) as [k1 s1] eqn:Hp.
    rewrite (claim_falsy cfg c e fs w0 k1 s1 Hf Hp); [done|].
    destruct k1 as [k1|]; [|done].
    apply sPop_Some in Hp as [Hk1 _]. rewrite H0 in Hk1.
    by apply not_elem_of_empty in Hk1.
Qed.

Lemma empty_string_key_is_dropped_witness :
  run 0 (Demo.at_time 100 1 "L1") (get_claim Demo.cfg) [] Demo.with_blank
  = (Done no_keys_available, with_unused_keys {[ "K1" ]} Demo.with_blank).
Proof.
  assert (Store.sPop (rnd (Demo.at_time 100 1 "L1")) (unused_keys Demo.with_blank)
          = (Some "", {[ "K1" ]})) as Hpop by (vm_compute; reflexivity).
  exact (proj1 (empty_string_key_is_dropped Demo.cfg 0 (Demo.at_time 100 1 "L1") []
                  Demo.with_blank {[ "K1" ]} Hpop eq_refl)).
Defined.

(** * Further properties of the code *)

(** ** escapeHtml *)

Lemma chars_append a b : chars (a +:+ b) = (chars a ++ chars b)%list.
Proof. induction a as [|c a IH]; [done|]. cbn [chars]. cbv [String.append]. fold String.append. cbn [chars app]. by rewrite IH. Qed.

Lemma string_of_chars_inj a b : chars a = chars b -> a = b.
Proof.
  revert b. induction a as [|c a IH]; intros [|d b]; cbn [chars]; try done.
  intros [= -> H]. f_equal. by apply IH.
Qed.

(** X1: the escaped text holds none of the characters <, >, double quote
    and single quote, whatever the key. *)
Theorem escapeHtml_no_markup s :
  Forall (fun c => c ≠ "<"%char /\ c ≠ ">"%char /\ c ≠ dq /\ c ≠ "'"%char)
    (chars (escapeHtml s)).
Proof.
  induction s as [|c s IH]; cbn [escapeHtml chars]; [constructor|].
  rewrite chars_append. apply Forall_app. split; [|done].
  unfold escape_char.
  destruct (Ascii.eqb c "&") eqn:H1; [repeat constructor; discriminate|].
  destruct (Ascii.eqb c "<") eqn:H2; [repeat constructor; discriminate|].
  destruct (Ascii.eqb c ">") eqn:H3; [repeat constructor; discriminate|].
  destruct (Ascii.eqb c dq) eqn:H4; [repeat constructor; discriminate|].
  destruct (Ascii.eqb c "'") eqn:H5; [repeat constructor; discriminate|].
  apply Ascii.eqb_neq in H2, H3, H4, H5. by repeat constructor.
Qed.

(** X2: escaping works character by character: the escaped text of a
    concatenation is the concatenation of the escaped texts. *)
Theorem escapeHtml_append a b :
  escapeHtml (a +:+ b) = escapeHtml a +:+ escapeHtml b.
Proof.
  apply string_of_chars_inj.
  induction a as [|c a IH].
  - done.
  - change (String c a +:+ b) with (String c (a +:+ b)).
    cbn [escapeHtml]. rewrite !chars_append in *. by rewrite IH, (assoc_L app).
Qed.

Lemma escape_char_plain c : html_special c = false -> escape_char c = String c "".
Proof.
  unfold html_special, escape_char. intros H.
  repeat (apply orb_false_iff in H as [H ?]).
  by repeat match goal with Hx : Ascii.eqb _ _ = false |- _ => rewrite Hx; clear Hx end.
Qed.

Lemma escape_char_special c :
  html_special c = true -> (2 <= String.length (escape_char c))%nat.
Proof.
  unfold html_special, escape_char. intros H.
  destruct (Ascii.eqb c "&"); [simpl; lia|].
  destruct (Ascii.eqb c "<"); [simpl; lia|].
  destruct (Ascii.eqb c ">"); [simpl; lia|].
  destruct (Ascii.eqb c dq); [simpl; lia|].
  destruct (Ascii.eqb c "'"); [simpl; lia|].
  discriminate.
Qed.

Lemma escapeHtml_length s : (String.length s <= String.length (escapeHtml s))%nat.
Proof.
  induction s as [|c s IH]; [done|].
  cbn [escapeHtml]. rewrite length_append. cbn [String.length].
  destruct (html_special c) eqn:Hc.
  - pose proof (escape_char_special c Hc). lia.
  - rewrite (escape_char_plain c Hc). cbn [String.length]. lia.
Qed.

(** X3: escapeHtml leaves a text as it is exactly when the text holds none
    of the five characters & < > double quote and single quote. *)
Theorem escapeHtml_fixed s :
  escapeHtml s = s <-> Forall (fun c => html_special c = false) (chars s).
Proof.
  induction s as [|c s IH]; cbn [escapeHtml chars].
  - split; [constructor | done].
  - split.
    + intros H. destruct (html_special c) eqn:Hc.
      * exfalso. apply (f_equal String.length) in H.
        rewrite length_append in H. cbn [String.length] in H.
        pose proof (escape_char_special c Hc). pose proof (escapeHtml_length s). lia.
      * rewrite (escape_char_plain c Hc) in H. cbv [String.append] in H.
        injection H as H. constructor; [done|]. by apply IH.
    + intros H. inversion H as [|? ? Hc Hs]; subst.
      rewrite (escape_char_plain c Hc). cbv [String.append].
      f_equal. by apply IH.
Qed.

Lemma escapeHtml_fixed_witness :
  escapeHtml "ABCD-1234" = "ABCD-1234".
Proof.
  apply (proj2 (escapeHtml_fixed "ABCD-1234")).
  repeat constructor.
Defined.

(** ** GET /claim *)


Lemma sPop_nonempty r (s : gset string) :
  s ≠ ∅ -> exists k, k ∈ s /\ Store.sPop r s = (Some k, s ∖ {[ k ]}).
Proof.
  intros Hne. destruct (Store.sPop r s) as [[k|] s'] eqn:Hp.
  - destruct (sPop_Some _ _ _ _ Hp) as [Hk ->]. by exists k.
  - by destruct (sPop_None _ _ _ Hp).
Qed.

Lemma truthy_str_nonempty k : k ≠ "" -> JS.truthy_str (Some k) = true.
Proof.
  intros Hk. cbn [JS.truthy_str]. apply negb_true_iff, String.eqb_neq. done.
Qed.

(** X4: on a pool that does not hold the empty string, with a fresh uuid
    and no rejected call, GET /claim answers "No keys available" exactly
    when the pool is empty and leaves the stores as they are; otherwise it
    takes one member out of the pool (one key less), inserts the row of
    the new link for that key with used = false and created_at = now(),
    sets the marker with the configured TTL and redirects to the link. *)
Theorem claim_from_clean_pool cfg c e fs w :
  "" ∉ unused_keys w -> calm 3 fs = true -> issued_pages w !! uuid e = None ->
  (unused_keys w = ∅ ->
     run c e (get_claim cfg) fs w = (Done no_keys_available, w))
  /\ (unused_keys w ≠ ∅ ->
        exists k,
          k ∈ unused_keys w
          /\ (size (unused_keys w ∖ {[ k ]}) + 1 = size (unused_keys w))%nat
          /\ run c e (get_claim cfg) fs w =
               (Done (Redirect ("/key/" +:+ uuid e)),
                with_redis_strings
                  (<["page_ttl:" +:+ uuid e := (CLAIM_TTL_SECONDS cfg, "1")]>
                     (redis_strings w))
                  (with_issued_pages
                     (<[uuid e := {| key_text := k; created_at := now e;
                                     used := Some false; used_at := None;
                                     ip := None; user_agent := None |}]>
                        (issued_pages w))
                     (with_unused_keys (unused_keys w ∖ {[ k ]}) w)))).
Proof.
  intros Hblank Hc Hfresh. split.
  - intros Hempty.
    destruct (Store.sPop (rnd e) (unused_keys w)) as [k s] eqn:Hp.
    rewrite (claim_calm cfg c e fs w k s Hc Hp).
    destruct k as [k|].
    + apply sPop_Some in Hp as [Hk _]. rewrite Hempty in Hk.
      by apply not_elem_of_empty in Hk.
    + apply sPop_None in Hp as [_ ->]. cbn [JS.truthy_str].
      by rewrite with_unused_keys_id.
  - intros Hne. destruct (sPop_nonempty (rnd e) _ Hne) as (k & Hk & Hp).
    exists k. split; [done|]. split.
    + rewrite size_difference by (by apply singleton_subseteq_l).
      rewrite size_singleton.
      assert (size (unused_keys w) ≠ 0%nat); [|lia].
      intros H0. apply size_empty_inv in H0. apply leibniz_equiv in H0. done.
    + rewrite (claim_calm cfg c e fs w (Some k) _ Hc Hp).
      rewrite truthy_str_nonempty by (intros ->; done).
      by rewrite Hfresh.
Qed.

Lemma claim_from_clean_pool_witness :
  run 0 (Demo.at_time 100 0 "L1") (get_claim Demo.cfg) [] Demo.fresh
  = (Done no_keys_available, Demo.fresh).
Proof.
  apply (proj1 (claim_from_clean_pool Demo.cfg 0 (Demo.at_time 100 0 "L1") []
                  Demo.fresh (not_elem_of_empty "") eq_refl eq_refl)).
  reflexivity.
Defined.



(** ** Runs without a refill *)

Lemma serve_pool_shrinks cfg ev w :
  quiescent w -> not_refill ev = true ->
  unused_keys (serve cfg ev w).2 ⊆ unused_keys w.
Proof.
  intros Hq Hn. pose proof (serve_cases cfg ev w Hq) as H.
  unfold not_refill in Hn.
  destruct (ev_route ev); try done.
  - by rewrite H.
  - destruct H as [|k s Hp _|k s Hp _|k s Hp _ _|k s Hp _ _];
      cbn [snd unused_keys with_console with_unused_keys with_issued_pages
           with_redis_strings]; try done.
    + destruct k as [k|].
      * apply sPop_Some in Hp as [_ ->]. apply subseteq_difference_l. done.
      * by apply sPop_None in Hp as [_ ->].
    + apply sPop_Some in Hp as [_ ->]. by apply subseteq_difference_l.
    + apply sPop_Some in Hp as [_ ->]. by apply subseteq_difference_l.
    + apply sPop_Some in Hp as [_ ->]. by apply subseteq_difference_l.
  - by destruct H.
  - by destruct H.
Qed.

Lemma serve_all_pool_shrinks cfg evs w :
  quiescent w -> forallb not_refill evs = true ->
  unused_keys (serve_all cfg evs w).2 ⊆ unused_keys w.
Proof.
  revert w. induction evs as [|ev evs IH]; intros w Hq Hn; cbn [serve_all]; [done|].
  cbn [forallb] in Hn. apply andb_true_iff in Hn as [Hn1 Hn2].
  pose proof (serve_quiescent cfg ev w Hq) as H1.
  pose proof (serve_pool_shrinks cfg ev w Hq Hn1) as H2.
  destruct (serve cfg ev w) as [o w1]. cbn [snd] in *. specialize (IH w1 H1 Hn2).
  destruct (serve_all cfg evs w1). cbn [snd] in *. by etrans.
Qed.

(** What a redirect of GET /claim tells about the stores. *)
Lemma serve_issued_link cfg ev id w :
  quiescent w -> issued_link id ev (serve cfg ev w).1 = true ->
  exists k,
    k ∈ unused_keys w
    /\ k ≠ ""
    /\ id = uuid (ev_env ev)
    /\ issued_pages w !! id = None
    /\ unused_keys (serve cfg ev w).2 = unused_keys w ∖ {[ k ]}
    /\ issued_pages (serve cfg ev w).2
         = <[id := Store.fresh_row k (now (ev_env ev))]> (issued_pages w).
Proof.
  intros Hq Hl. pose proof (serve_cases cfg ev w Hq) as H.
  unfold issued_link in Hl.
  destruct (ev_route ev); try done.
  destruct H as [|k s Hp _|k s Hp _|k s Hp _ _|k s Hp Ht Hf];
    cbn [fst snd] in *; try done.
  apply String.eqb_eq in Hl. cbv [String.append] in Hl. injection Hl as Hl.
  fold String.append in Hl. subst id.
  destruct (sPop_Some _ _ _ _ Hp) as [Hk ->].
  exists k. repeat split; try done.
  intros ->. done.
Qed.

(** X6: the key GET /claim hands out with a link has left the pool and, as
    long as no refill is requested, stays out of it whatever requests
    follow and whichever of their calls are rejected: it cannot be popped
    for a second link. *)
Theorem issued_key_stays_out cfg w ev id :
  quiescent w -> issued_link id ev (serve cfg ev w).1 = true ->
  exists k,
    k ∈ unused_keys w
    /\ issued_pages (serve cfg ev w).2 !! id
         = Some (Store.fresh_row k (now (ev_env ev)))
    /\ forall evs,
         forallb not_refill evs = true ->
         k ∉ unused_keys (serve_all cfg evs (serve cfg ev w).2).2.
Proof.
  intros Hq Hl.
  destruct (serve_issued_link cfg ev id w Hq Hl) as (k & Hk & _ & _ & _ & Hpool & Hrows).
  exists k. split; [done|]. split.
  - by rewrite Hrows, lookup_insert_eq.
  - intros evs Hn Hin.
    apply (serve_all_pool_shrinks cfg evs _ (serve_quiescent cfg ev w Hq) Hn) in Hin.
    rewrite Hpool in Hin. apply elem_of_difference in Hin as [_ Hin].
    apply Hin. by apply elem_of_singleton.
Qed.

Lemma issued_key_stays_out_witness :
  exists k,
    k ∈ unused_keys Demo.stocked
    /\ issued_pages (serve Demo.cfg (Demo.claim_ev 100 "L1" []) Demo.stocked).2 !! "L1"
         = Some (Store.fresh_row k (now (ev_env (Demo.claim_ev 100 "L1" []))))
    /\ forall evs,
         forallb not_refill evs = true ->
         k ∉ unused_keys
               (serve_all Demo.cfg evs
                  (serve Demo.cfg (Demo.claim_ev 100 "L1" []) Demo.stocked).2).2.
Proof.
  apply (issued_key_stays_out Demo.cfg Demo.stocked (Demo.claim_ev 100 "L1" []) "L1").
  - split; reflexivity.
  - vm_compute; reflexivity.
Defined.

(** X7: a link id GET /claim redirects to had no row before the request,
    its row is there after every later run of requests, and no later
    GET /claim redirects to the same id again. *)
Theorem link_ids_never_reused cfg w ev id :
  quiescent w -> issued_link id ev (serve cfg ev w).1 = true ->
  issued_pages w !! id = None
  /\ (forall evs,
        is_Some (issued_pages (serve_all cfg evs (serve cfg ev w).2).2 !! id))
  /\ (forall evs ev' id',
        issued_link id' ev'
          (serve cfg ev' (serve_all cfg evs (serve cfg ev w).2).2).1 = true ->
        id' ≠ id).
Proof.
  intros Hq Hl.
  destruct (serve_issued_link cfg ev id w Hq Hl) as (k & _ & _ & _ & Hnone & _ & Hrows).
  pose proof (serve_quiescent cfg ev w Hq) as Hq1.
  assert (Hstay : forall evs,
            is_Some (issued_pages (serve_all cfg evs (serve cfg ev w).2).2 !! id)).
  { intros evs.
    destruct (serve_all_row_kept cfg evs id _ Hq1 (Store.fresh_row k (now (ev_env ev))))
      as (r' & Hr' & _).
    - by rewrite Hrows, lookup_insert_eq.
    - by exists r'. }
  split; [done|]. split; [done|].
  intros evs ev' id' Hl' ->.
  pose proof (serve_all_quiescent cfg evs _ Hq1) as Hq2.
  destruct (serve_issued_link cfg ev' id _ Hq2 Hl') as (_ & _ & _ & _ & Hnone' & _).
  destruct (Hstay evs) as [r' Hr']. congruence.
Qed.

Lemma link_ids_never_reused_witness :
  issued_pages Demo.stocked !! "L1" = None.
Proof.
  apply (proj1 (link_ids_never_reused Demo.cfg Demo.stocked
                  (Demo.claim_ev 100 "L1" []) "L1"
                  (conj eq_refl eq_refl) ltac:(vm_compute; reflexivity))).
Defined.

Lemma size_pop (s : gset string) k :
  k ∈ s -> (size (s ∖ {[ k ]}) + 1 = size s)%nat.
Proof.
  intros Hk. rewrite size_difference by (by apply singleton_subseteq_l).
  rewrite size_singleton.
  assert (size s ≠ 0%nat); [|lia].
  intros H0. apply size_empty_inv in H0. apply leibniz_equiv in H0.
  rewrite H0 in Hk. by apply not_elem_of_empty in Hk.
Qed.

Lemma serve_inventory cfg ev w :
  quiescent w -> not_refill ev = true ->
  (size (unused_keys (serve cfg ev w).2) + size (issued_pages (serve cfg ev w).2)
   <= size (unused_keys w) + size (issued_pages w))%nat.
Proof.
  intros Hq Hn. pose proof (serve_cases cfg ev w Hq) as H.
  unfold not_refill in Hn.
  destruct (ev_route ev); try done.
  - by rewrite H.
  - destruct H as [|k s Hp _|k s Hp _|k s Hp _ Hf|k s Hp _ Hf];
      cbn [snd unused_keys issued_pages with_console with_unused_keys
           with_issued_pages with_redis_strings]; try done.
    + destruct k as [k|].
      * apply sPop_Some in Hp as [Hk ->]. pose proof (size_pop _ _ Hk). lia.
      * by apply sPop_None in Hp as [_ ->].
    + apply sPop_Some in Hp as [Hk ->]. pose proof (size_pop _ _ Hk). lia.
    + apply sPop_Some in Hp as [Hk ->]. pose proof (size_pop _ _ Hk).
      rewrite map_size_insert_None by done. lia.
    + apply sPop_Some in Hp as [Hk ->]. pose proof (size_pop _ _ Hk).
      rewrite map_size_insert_None by done. lia.
  - destruct H as [| | | |r Hr _|r Hr _];
      cbn [snd unused_keys issued_pages with_console with_unused_keys
           with_issued_pages with_redis_strings]; try done.
    + rewrite map_size_insert_Some by done. lia.
    + rewrite map_size_insert_Some by done. lia.
  - by destruct H.
Qed.

(** X8: keys are never made up: over any run of requests without a
    refill, whichever calls are rejected, the number of keys in the pool
    plus the number of rows of issued_pages does not grow. *)
Theorem inventory_never_grows cfg evs w :
  quiescent w -> forallb not_refill evs = true ->
  (size (unused_keys (serve_all cfg evs w).2)
   + size (issued_pages (serve_all cfg evs w).2)
   <= size (unused_keys w) + size (issued_pages w))%nat.
Proof.
  revert w. induction evs as [|ev evs IH]; intros w Hq Hn; cbn [serve_all]; [done|].
  cbn [forallb] in Hn. apply andb_true_iff in Hn as [Hn1 Hn2].
  pose proof (serve_quiescent cfg ev w Hq) as H1.
  pose proof (serve_inventory cfg ev w Hq Hn1) as H2.
  destruct (serve cfg ev w) as [o w1]. cbn [snd] in *. specialize (IH w1 H1 Hn2).
  destruct (serve_all cfg evs w1). cbn [snd] in *. lia.
Qed.

Lemma inventory_never_grows_witness :
  (size (unused_keys
           (serve_all Demo.cfg
              [Demo.claim_ev 100 "L1" []; Demo.key_ev 200 "10.0.0.1" "L1" []]
              Demo.stocked).2)
   + size (issued_pages
             (serve_all Demo.cfg
                [Demo.claim_ev 100 "L1" []; Demo.key_ev 200 "10.0.0.1" "L1" []]
                Demo.stocked).2)
   <= size (unused_keys Demo.stocked) + size (issued_pages Demo.stocked))%nat.
Proof.
  apply (inventory_never_grows Demo.cfg
           [Demo.claim_ev 100 "L1" []; Demo.key_ev 200 "10.0.0.1" "L1" []]
           Demo.stocked).
  - split; reflexivity.
  - reflexivity.
Defined.

(** ** GET /key/:pageId *)

(** X9: when one of the first five calls of GET /key (connect, BEGIN,
    SELECT, UPDATE or ROLLBACK, COMMIT) is rejected, nothing of the request
    stays: the stores are as before, but for the line the catch block
    logs, and the key page is not sent. *)
Theorem redeem_rolls_back c e req fs w :
  quiescent w -> calm 5 fs = false ->
  (snd (run c e (get_key req) fs w) = w
   \/ snd (run c e (get_key req) fs w)
        = with_console ("key serve error" :: console w) w)
  /\ forall k, fst (run c e (get_key req) fs w) ≠ Done (your_key k).
Proof.
  destruct w as [ks rs kk ip tx lk cs]. intros [Ht Hl] Hc; simpl in Ht, Hl; subst tx lk.
  unfold get_key, serve_key, on_key_error.
  destruct (ip !! req_pageId req) as [r|] eqn:Hr;
    [destruct (JS.truthy_bool (used r)) eqn:Hu|].
  all: run_all fs; run_step; cbn [calm negb andb] in Hc; try discriminate Hc.
  all: split; [first [by left | by right] | intros k; discriminate].
Qed.

Lemma redeem_rolls_back_witness :
  snd (run 0 (Demo.at_time 200 0 "") (get_key (Demo.visitor "10.0.0.1" "L1"))
         [false; false; false; true] Demo.issued)
  = with_console ("key serve error" :: console Demo.issued) Demo.issued.
Proof.
  destruct (proj1 (redeem_rolls_back 0 (Demo.at_time 200 0 "")
                     (Demo.visitor "10.0.0.1" "L1") [false; false; false; true]
                     Demo.issued (conj eq_refl eq_refl) eq_refl)) as [H|H].
  - vm_compute in H. discriminate H.
  - exact H.
Defined.

(** X10: whatever is rejected, GET /key/:pageId never touches the pool or
    the keys table, adds no row and removes none, changes no row but the
    one of its pageId and no Redis key but the marker of its pageId. *)
Theorem redeem_frame c e req fs w :
  quiescent w ->
  unused_keys (snd (run c e (get_key req) fs w)) = unused_keys w
  /\ keys (snd (run c e (get_key req) fs w)) = keys w
  /\ dom (issued_pages (snd (run c e (get_key req) fs w))) = dom (issued_pages w)
  /\ (forall id, id ≠ req_pageId req ->
        issued_pages (snd (run c e (get_key req) fs w)) !! id = issued_pages w !! id)
  /\ (forall k, k ≠ "page_ttl:" +:+ req_pageId req ->
        redis_strings (snd (run c e (get_key req) fs w)) !! k = redis_strings w !! k).
Proof.
  intros Hq.
  destruct (get_key_cases c e req fs w Hq) as [| | | |r Hr _|r Hr _];
    cbn [snd unused_keys keys issued_pages redis_strings with_console
         with_issued_pages with_redis_strings]; repeat split; try done.
  all: try (apply dom_insert_lookup_L; by eexists).
  all: try (intros id Hid; by rewrite lookup_insert_ne).
  intros k Hk. by rewrite lookup_delete_ne.
Qed.

Lemma redeem_frame_witness :
  unused_keys
    (snd (run 0 (Demo.at_time 200 0 "") (get_key (Demo.visitor "10.0.0.1" "L1")) []
            Demo.issued))
  = unused_keys Demo.issued.
Proof.
  apply (proj1 (redeem_frame 0 (Demo.at_time 200 0 "")
                  (Demo.visitor "10.0.0.1" "L1") [] Demo.issued
                  (conj eq_refl eq_refl))).
Defined.

(** ** The server as a whole *)

Lemma serve_keys cfg ev w :
  quiescent w -> keys (serve cfg ev w).2 = keys w.
Proof.
  intros Hq. pose proof (serve_cases cfg ev w Hq) as H.
  destruct (ev_route ev); [by rewrite H | by destruct H ..].
Qed.

Lemma serve_rows_stay cfg ev w id r :
  quiescent w -> issued_pages w !! id = Some r ->
  keys (serve cfg ev w).2 = keys w
  /\ exists r',
       issued_pages (serve cfg ev w).2 !! id = Some r'
       /\ key_text r' = key_text r /\ created_at r' = created_at r
       /\ (used r = Some true -> r' = r).
Proof.
  intros Hq Hrow. pose proof (serve_cases cfg ev w Hq) as H.
  destruct (ev_route ev).
  - rewrite H. split; [done|]. by exists r.
  - destruct H; cbn [snd keys issued_pages with_console with_unused_keys
                     with_issued_pages with_redis_strings];
      (split; [done|]); try (by exists r).
    all: exists r; rewrite lookup_insert_ne by congruence; done.
  - destruct H as [| | | |r0 Hr0 Hu0|r0 Hr0 Hu0];
      cbn [snd keys issued_pages with_console with_unused_keys
           with_issued_pages with_redis_strings];
      (split; [done|]); try (by exists r).
    all: destruct (decide (req_pageId (ev_req ev) = id)) as [Heq|Hne];
      [ rewrite Heq in *; rewrite lookup_insert_eq;
        assert (r0 = r) as -> by congruence;
        eexists; split; [done|]; repeat split;
        intros Hu; rewrite Hu in Hu0; discriminate
      | rewrite lookup_insert_ne by done; by exists r ].
  - destruct H; cbn [snd]; (split; [done|]); by exists r.
  - destruct H; cbn [snd]; (split; [done|]); by exists r.
Qed.

(** X11: over any run of requests, whichever calls are rejected, the
    server never writes the keys table, never deletes a row of
    issued_pages and never changes the key_text or created_at of a row; a
    row that is used is not changed at all any more. *)
Theorem server_never_rewrites cfg evs w :
  quiescent w ->
  keys (serve_all cfg evs w).2 = keys w
  /\ forall id r,
       issued_pages w !! id = Some r ->
       exists r',
         issued_pages (serve_all cfg evs w).2 !! id = Some r'
         /\ key_text r' = key_text r /\ created_at r' = created_at r
         /\ (used r = Some true -> r' = r).
Proof.
  revert w. induction evs as [|ev evs IH]; intros w Hq; cbn [serve_all].
  { split; [done|]. intros id r Hr. by exists r. }
  pose proof (serve_quiescent cfg ev w Hq) as H1.
  pose proof (fun id r => serve_rows_stay cfg ev w id r Hq) as H2.
  pose proof (serve_keys cfg ev w Hq) as H3.
  destruct (serve cfg ev w) as [o w1]. cbn [snd] in *.
  destruct (IH w1 H1) as [IHk IHr].
  destruct (serve_all cfg evs w1) as [os w2]. cbn [snd] in *.
  split.
  - by rewrite IHk.
  - intros id r Hr.
    destruct (H2 id r Hr) as (_ & r1 & Hr1 & Hk1 & Hc1 & Hu1).
    destruct (IHr id r1 Hr1) as (r2 & Hr2 & Hk2 & Hc2 & Hu2).
    exists r2. repeat split; [done | congruence | congruence |].
    intros Hu. specialize (Hu1 Hu). subst r1. by apply Hu2.
Qed.

Lemma server_never_rewrites_witness :
  keys (serve_all Demo.cfg
          [Demo.claim_ev 100 "L1" []; Demo.key_ev 200 "10.0.0.1" "L1" []]
          Demo.stocked).2
  = keys Demo.stocked.
Proof.
  apply (proj1 (server_never_rewrites Demo.cfg
                  [Demo.claim_ev 100 "L1" []; Demo.key_ev 200 "10.0.0.1" "L1" []]
                  Demo.stocked (conj eq_refl eq_refl))).
Defined.

(** ** POST /admin/seed-redis and GET /admin/issued *)

Lemma elem_of_live_keys w k :
  k ∈ live_keys w <->
  exists row, row ∈ keys w /\ k_key_text row = k /\ k_deprecated row = Some false.
Proof.
  unfold live_keys. rewrite list_elem_of_fmap. split.
  - intros (row & -> & Hrow). apply list_elem_of_filter in Hrow as [Hl Hin].
    exists row. repeat split; [done|]. unfold Store.live_key in Hl.
    by destruct (k_deprecated row) as [[]|].
  - intros (row & Hin & <- & Hd). exists row. split; [done|].
    apply list_elem_of_filter. split; [|done]. unfold Store.live_key. by rewrite Hd.
Qed.

(** X12: whoever asks and whatever is rejected, POST /admin/seed-redis
    takes no key out of the pool (a key deprecated after it was seeded
    stays there), puts in nothing but key_text values of rows with
    deprecated = false, and leaves the keys table, issued_pages and the
    markers alone. *)
Theorem refill_only_adds_live_keys cfg c e req fs w :
  unused_keys w ⊆ unused_keys (snd (run c e (post_admin_seed_redis cfg req) fs w))
  /\ (forall k,
        k ∈ unused_keys (snd (run c e (post_admin_seed_redis cfg req) fs w)) ->
        k ∈ unused_keys w
        \/ exists row,
             row ∈ keys w /\ k_key_text row = k /\ k_deprecated row = Some false)
  /\ keys (snd (run c e (post_admin_seed_redis cfg req) fs w)) = keys w
  /\ issued_pages (snd (run c e (post_admin_seed_redis cfg req) fs w)) = issued_pages w
  /\ redis_strings (snd (run c e (post_admin_seed_redis cfg req) fs w)) = redis_strings w.
Proof.
  destruct (seed_cases cfg c e req fs w);
    cbn [snd unused_keys keys issued_pages redis_strings with_console with_unused_keys];
    repeat split; try done; try (intros k Hk; by left).
  - apply union_subseteq_l.
  - intros k [Hk|Hk]%elem_of_union; [by left|right].
    apply elem_of_list_to_set in Hk. by apply elem_of_live_keys.
Qed.

Lemma refill_only_adds_live_keys_witness :
  "K1" ∈ unused_keys Demo.fresh
  \/ exists row,
       row ∈ keys Demo.fresh /\ k_key_text row = "K1" /\ k_deprecated row = Some false.
Proof.
  apply (proj1 (proj2 (refill_only_adds_live_keys Demo.cfg 0 (Demo.at_time 50 0 "")
                         Demo.admin [] Demo.fresh)) "K1").
  vm_compute. reflexivity.
Defined.

Lemma rejected_without_token token admin :
  admin = None \/ admin = Some "" -> rejected token admin = true.
Proof.
  intros Ha. unfold rejected.
  destruct (JS.truthy_str token) eqn:Ht; [|done]. cbn [negb orb].
  apply negb_true_iff, bool_decide_eq_false. intros ->.
  destruct Ha as [->| ->]; discriminate.
Qed.

(** X13: when ADMIN_TOKEN is not set, or set to the empty string, no
    credential opens the admin routes: both answer 401 "unauthorized" to
    every request, without a call to the stores. *)
Theorem admin_locked_without_token cfg req :
  ADMIN_TOKEN cfg = None \/ ADMIN_TOKEN cfg = Some "" ->
  post_admin_seed_redis cfg req = Ret unauthorized
  /\ get_admin_issued cfg req = Ret unauthorized.
Proof.
  intros Ha. unfold post_admin_seed_redis, get_admin_issued.
  by rewrite !rejected_without_token.
Qed.

Lemma admin_locked_without_token_witness :
  post_admin_seed_redis
    {| KEY_SET := "unused_keys"; CLAIM_TTL_SECONDS := 600; ADMIN_TOKEN := None |}
    Demo.admin
  = Ret unauthorized.
Proof.
  apply (proj1 (admin_locked_without_token
                  {| KEY_SET := "unused_keys"; CLAIM_TTL_SECONDS := 600;
                     ADMIN_TOKEN := None |} Demo.admin (or_introl eq_refl))).
Defined.

(** X14: on POST /admin/seed-redis a non-empty x-admin-token header is
    the credential, whatever the body says: the request is refused exactly
    when the header differs from ADMIN_TOKEN, so a right token in the body
    does not make up for a wrong header; the body token only counts when
    the header is absent or empty. *)
Theorem seed_header_comes_first cfg req :
  (forall h, req_admin_header req = Some h -> h ≠ "" ->
     (post_admin_seed_redis cfg req = Ret unauthorized <-> ADMIN_TOKEN cfg ≠ Some h))
  /\ (req_admin_header req = None \/ req_admin_header req = Some "" ->
        seed_token req = req_body_token req).
Proof.
  split.
  - intros h Hh Hne.
    assert (seed_token req = Some h) as Ht.
    { unfold seed_token, JS.or_str. rewrite Hh. cbn [JS.truthy_str].
      by rewrite (proj2 (String.eqb_neq h "") Hne). }
    unfold post_admin_seed_redis. fold (seed_token req). rewrite Ht.
    unfold rejected. cbn [JS.truthy_str].
    rewrite (proj2 (String.eqb_neq h "") Hne). cbn [negb orb].
    destruct (decide (Some h = ADMIN_TOKEN cfg)) as [Heq|Hneq].
    + rewrite bool_decide_eq_true_2 by done. cbn [negb]. split; [discriminate|].
      intros H. by destruct H.
    + rewrite bool_decide_eq_false_2 by done. cbn [negb]. split; [|done].
      intros _ H. by apply Hneq.
  - intros [Hh|Hh]; unfold seed_token, JS.or_str; by rewrite Hh.
Qed.

Lemma seed_header_comes_first_witness :
  post_admin_seed_redis Demo.cfg Demo.intruder = Ret unauthorized.
Proof.
  apply (proj1 (seed_header_comes_first Demo.cfg Demo.intruder) "guess" eq_refl).
  - discriminate.
  - discriminate.
Defined.











(** ** seed_keys.js *)

Section ScriptProofs.

Import Scripts.

Lemma split_lines_cons c s :
  exists p ps, split_lines (String c s) = p :: ps.
Proof.
  cbn [split_lines]. destruct (Ascii.eqb c lf); [by eexists _, _|].
  destruct s as [|d s2]; [by eexists _, _|].
  destruct (Ascii.eqb c cr && Ascii.eqb d lf); [by eexists _, _|].
  destruct (split_lines (String d s2)); by eexists _, _.
Qed.

Lemma split_lines_nonempty s : split_lines s ≠ [].
Proof.
  destruct s as [|c s]; [done|].
  destruct (split_lines_cons c s) as (p & ps & ->). done.
Qed.

Lemma join_lines_cons c p ps :
  join_lines (String c p :: ps) = String c (join_lines (p :: ps)).
Proof. by destruct ps. Qed.

Lemma join_lines_blank l : l ≠ [] -> join_lines ("" :: l) = String lf (join_lines l).
Proof. by destruct l. Qed.

Lemma split_lines_spec n s :
  (String.length s <= n)%nat ->
  Forall (fun p => lf ∉ chars p) (split_lines s)
  /\ (cr ∉ chars s -> join_lines (split_lines s) = s).
Proof.
  revert s. induction n as [|n IH]; intros s Hn.
  { destruct s; [|cbn in Hn; lia]. split; [|done].
    repeat constructor. cbn. apply not_elem_of_nil. }
  destruct s as [|c s1].
  { split; [|done]. repeat constructor. cbn. apply not_elem_of_nil. }
  cbn [String.length] in Hn.
  destruct (IH s1 ltac:(lia)) as [IH1 IH2].
  cbn [split_lines].
  destruct (Ascii.eqb c lf) eqn:Hlf.
  { split.
    - constructor; [cbn; apply not_elem_of_nil | done].
    - intros Hcr. cbn [chars] in Hcr. apply not_elem_of_cons in Hcr as [_ Hcr].
      rewrite join_lines_blank by apply split_lines_nonempty.
      apply Ascii.eqb_eq in Hlf. subst c. by rewrite IH2. }
  apply Ascii.eqb_neq in Hlf.
  destruct s1 as [|d s2].
  { split; [|done]. repeat constructor. cbn [chars].
    intros [Heq|H]%elem_of_cons; [done | by apply elem_of_nil in H]. }
  destruct (Ascii.eqb c cr && Ascii.eqb d lf) eqn:Hcrlf.
  { cbn [String.length] in Hn.
    destruct (IH s2 ltac:(lia)) as [IH3 _].
    split.
    - constructor; [cbn; apply not_elem_of_nil | done].
    - intros Hcr. exfalso. apply Hcr. cbn [chars].
      apply andb_true_iff in Hcrlf as [Hc%Ascii.eqb_eq _]. subst c.
      apply elem_of_cons. by left. }
  destruct (split_lines_cons d s2) as (p & ps & Hp). rewrite Hp in *.
  split.
  - inversion IH1 as [|? ? Hp1 Hps]; subst. constructor; [|done].
    cbn [chars]. intros [Heq|H]%elem_of_cons; [by apply Hlf | by apply Hp1].
  - intros Hcr. cbn [chars] in Hcr. apply not_elem_of_cons in Hcr as [_ Hcr].
    rewrite join_lines_cons. by rewrite (IH2 Hcr).
Qed.

End ScriptProofs.

(** X16: split(/\r?\n/) always gives at least one line, no line holds a
    line feed, and for a text without carriage returns joining the lines
    with line feeds gives the text back. *)
Theorem split_lines_round_trip s :
  Scripts.split_lines s ≠ []
  /\ Forall (fun p => Scripts.lf ∉ chars p) (Scripts.split_lines s)
  /\ (Scripts.cr ∉ chars s -> Scripts.join_lines (Scripts.split_lines s) = s).
Proof.
  split; [apply split_lines_nonempty|].
  by apply (split_lines_spec (String.length s)).
Qed.

Lemma split_lines_round_trip_witness :
  Scripts.join_lines (Scripts.split_lines (String "K" (String Scripts.lf "L")))
  = String "K" (String Scripts.lf "L").
Proof.
  apply (proj2 (proj2 (split_lines_round_trip (String "K" (String Scripts.lf "L"))))).
  cbn [chars]. intros H.
  repeat (apply elem_of_cons in H as [H|H]; [discriminate H|]).
  by apply elem_of_nil in H.
Defined.

Section InsertProofs.

Import Scripts.

Local Abbreviation texts := (fmap (M:=list) k_key_text).

Lemma insert_key_spec k tbl :
  (k ∈ texts tbl /\ insert_key k tbl = tbl)
  \/ ((k ∉ texts tbl)
      /\ insert_key k tbl = (tbl ++ [{| k_key_text := k; k_deprecated := Some false |}])%list).
Proof.
  unfold insert_key. case_bool_decide; [by left | by right].
Qed.

Lemma insert_key_elem k tbl : k ∈ texts (insert_key k tbl).
Proof.
  destruct (insert_key_spec k tbl) as [[Hin ->]|[_ ->]]; [done|].
  rewrite fmap_app. apply elem_of_app. right. cbn. apply elem_of_cons. by left.
Qed.

Lemma insert_key_mono k k' tbl : k' ∈ texts tbl -> k' ∈ texts (insert_key k tbl).
Proof.
  intros H. destruct (insert_key_spec k tbl) as [[_ ->]|[_ ->]]; [done|].
  rewrite fmap_app. apply elem_of_app. by left.
Qed.

(** What the loop of INSERTs does to the table. *)
Lemma insert_all_spec ks : forall fs tbl errs,
  exists new,
    (insert_all ks fs tbl errs).1 = (tbl ++ new)%list
    /\ Forall (fun row => k_deprecated row = Some false
                          /\ k_key_text row ∈ ks
                          /\ k_key_text row ∉ texts tbl) new
    /\ (NoDup (texts tbl) -> NoDup (texts (tbl ++ new)%list)).
Proof.
  induction ks as [|k ks IH]; intros fs tbl errs; cbn [insert_all].
  - exists []. rewrite app_nil_r. by repeat split.
  - destruct (hd false fs).
    + destruct (IH (tl fs) tbl (k :: errs)) as (new & Heq & Hnew & Hnd).
      exists new. split; [done|]. split; [|done].
      eapply Forall_impl; [exact Hnew|]. cbn. intros row (? & ? & ?).
      repeat split; try done. apply elem_of_cons. by right.
    + destruct (insert_key_spec k tbl) as [[Hin Hk]|[Hnin Hk]]; rewrite Hk.
      * destruct (IH (tl fs) tbl errs) as (new & Heq & Hnew & Hnd).
        exists new. split; [done|]. split; [|done].
        eapply Forall_impl; [exact Hnew|]. cbn. intros row (? & ? & ?).
        repeat split; try done. apply elem_of_cons. by right.
      * destruct (IH (tl fs)
                    (tbl ++ [{| k_key_text := k; k_deprecated := Some false |}])%list errs)
          as (new & Heq & Hnew & Hnd).
        exists ({| k_key_text := k; k_deprecated := Some false |} :: new).
        rewrite Heq, <- (assoc_L app). split; [done|]. split.
        -- constructor.
           ++ repeat split; [|done]. apply elem_of_cons. by left.
           ++ eapply Forall_impl; [exact Hnew|]. cbn. intros row (? & ? & Hn).
              repeat split; try done; [apply elem_of_cons; by right|].
              intros Hin. apply Hn. rewrite fmap_app.
              apply elem_of_app. by left.
        -- intros Hd. rewrite cons_middle, (assoc_L app). apply Hnd.
           rewrite fmap_app. apply NoDup_app. split; [done|].
           split; [|apply NoDup_singleton].
           intros x Hx [->|H]%elem_of_cons; [done | by apply elem_of_nil in H].
Qed.

Lemma insert_all_mono ks : forall fs tbl errs k e,
  (k ∈ texts tbl -> k ∈ texts (insert_all ks fs tbl errs).1)
  /\ (e ∈ errs -> e ∈ (insert_all ks fs tbl errs).2).
Proof.
  induction ks as [|k0 ks IH]; intros fs tbl errs k e; cbn [insert_all]; [done|].
  destruct (hd false fs).
  - destruct (IH (tl fs) tbl (k0 :: errs) k e) as [H1 H2]. split; [done|].
    intros He. apply H2, elem_of_cons. by right.
  - destruct (IH (tl fs) (insert_key k0 tbl) errs k e) as [H1 H2]. split; [|done].
    intros Hk. by apply H1, insert_key_mono.
Qed.

(** Each INSERT stands alone: a key whose INSERT is not rejected is in the
    table afterwards, one whose INSERT is rejected is logged. *)
Lemma insert_all_each ks : forall fs tbl errs i k,
  ks !! i = Some k ->
  (fs !! i ≠ Some true -> k ∈ texts (insert_all ks fs tbl errs).1)
  /\ (fs !! i = Some true -> k ∈ (insert_all ks fs tbl errs).2).
Proof.
  induction ks as [|k0 ks IH]; intros fs tbl errs i k Hi; [done|].
  cbn [insert_all]. destruct i as [|i].
  - injection Hi as ->. destruct fs as [|[] fs]; cbn [hd tl].
    + split; [intros _|done]. apply insert_all_mono, insert_key_elem. exact "".
    + split; [done|intros _]. apply (insert_all_mono ks fs tbl (k :: errs) "" k).
      apply elem_of_cons. by left.
    + split; [intros _|done]. apply insert_all_mono, insert_key_elem. exact "".
  - cbn in Hi. destruct fs as [|b fs]; cbn [hd tl].
    + destruct (IH [] (insert_key k0 tbl) errs i k Hi) as [H1 H2].
      split; [intros _; by apply H1 | done].
    + destruct b; cbn [lookup]; apply IH; done.
Qed.

Lemma insert_all_known ks : forall fs tbl errs,
  Forall (fun k => k ∈ texts tbl) ks -> (insert_all ks fs tbl errs).1 = tbl.
Proof.
  induction ks as [|k ks IH]; intros fs tbl errs Hall; cbn [insert_all]; [done|].
  inversion Hall as [|? ? Hk Hks]; subst.
  destruct (hd false fs); [by apply IH|].
  destruct (insert_key_spec k tbl) as [[_ ->]|[Hn _]]; [by apply IH | done].
Qed.

Lemma parse_keys_nonempty trim raw k : k ∈ parse_keys trim raw -> k ≠ "".
Proof. unfold parse_keys. by intros [? _]%list_elem_of_filter. Qed.

End InsertProofs.

(** X17: seed_keys.js only appends to the keys table: the rows that were
    there stay in place with their deprecated flag, every new row has
    deprecated = false and a key_text that is not empty and was not in the
    table, and key_text stays unique if it was; this for any file, any trim
    and any rejected calls. *)
Theorem seed_keys_appends trim file faults tbl :
  exists new,
    (Scripts.seed_keys trim file faults tbl).1.2 = (tbl ++ new)%list
    /\ Forall (fun row => k_deprecated row = Some false
                          /\ k_key_text row ≠ ""
                          /\ k_key_text row ∉ k_key_text <$> tbl) new
    /\ (NoDup (k_key_text <$> tbl) -> NoDup (k_key_text <$> (tbl ++ new)%list)).
Proof.
  unfold Scripts.seed_keys.
  destruct (hd false faults); [|destruct file as [raw|]].
  1, 3: exists []; rewrite app_nil_r; by repeat split.
  destruct (insert_all_spec (Scripts.parse_keys trim raw) (tl faults) tbl [])
    as (new & Heq & Hnew & Hnd).
  destruct (Scripts.insert_all _ _ _ _) as [tbl' errs]. cbn [fst snd] in *.
  exists new. split; [done|]. split; [|done].
  eapply Forall_impl; [exact Hnew|]. cbn. intros row (? & Hk & ?).
  repeat split; try done. by eapply parse_keys_nonempty.
Qed.

Lemma seed_keys_appends_witness :
  NoDup (k_key_text <$> (Scripts.seed_keys (fun s => s)
                           (Some (String "K" (String Scripts.lf "K1"))) []
                           Demo.catalog).1.2).
Proof.
  destruct (seed_keys_appends (fun s => s) (Some (String "K" (String Scripts.lf "K1")))
              [] Demo.catalog) as (new & -> & _ & Hnd).
  apply Hnd. cbn.
  repeat (constructor; [intros H; repeat (apply elem_of_cons in H as [H|H];
                                         [discriminate H|]); by apply elem_of_nil in H|]).
  constructor.
Defined.

(** X18: in seed_keys.js a rejected INSERT costs only its own key: when
    the connection and the file are there, every non-blank trimmed line
    whose INSERT is not rejected is in the keys table afterwards, every
    one whose INSERT is rejected is logged, and the script still ends by
    logging the number of lines it read. *)
Theorem seed_keys_isolates_failures trim raw faults tbl :
  hd false faults = false ->
  (Scripts.seed_keys trim (Some raw) faults tbl).1.1
    = Scripts.Finished (length (Scripts.parse_keys trim raw))
  /\ forall i k,
       Scripts.parse_keys trim raw !! i = Some k ->
       (tl faults !! i ≠ Some true ->
          k ∈ k_key_text <$> (Scripts.seed_keys trim (Some raw) faults tbl).1.2)
       /\ (tl faults !! i = Some true ->
             k ∈ (Scripts.seed_keys trim (Some raw) faults tbl).2).
Proof.
  intros Hf. unfold Scripts.seed_keys. rewrite Hf.
  pose proof (insert_all_each (Scripts.parse_keys trim raw) (tl faults) tbl []) as H.
  destruct (Scripts.insert_all _ _ _ _) as [tbl' errs]. cbn [fst snd] in *.
  split; [done|]. intros i k Hi. by apply H.
Qed.

Lemma seed_keys_isolates_failures_witness :
  "K9" ∈ k_key_text <$>
    (Scripts.seed_keys (fun s => s) (Some (String "K" (String Scripts.lf "K9")))
       [false; true] Demo.catalog).1.2.
Proof.
  apply (proj1 (proj2 (seed_keys_isolates_failures (fun s => s)
                         (String "K" (String Scripts.lf "K9")) [false; true]
                         Demo.catalog eq_refl) 1%nat "K9" eq_refl)).
  discriminate.
Defined.

(** X19: seed_keys.js can be run again: after a run in which nothing was
    rejected, a second run on the same file leaves the keys table as it
    is, whatever is rejected in it (ON CONFLICT DO NOTHING). *)
Theorem seed_keys_rerun trim raw faults tbl :
  (Scripts.seed_keys trim (Some raw) faults
     (Scripts.seed_keys trim (Some raw) [] tbl).1.2).1.2
  = (Scripts.seed_keys trim (Some raw) [] tbl).1.2.
Proof.
  unfold Scripts.seed_keys. cbn [hd tl].
  pose proof (insert_all_each (Scripts.parse_keys trim raw) [] tbl []) as H.
  destruct (Scripts.insert_all (Scripts.parse_keys trim raw) [] tbl []) as [tbl1 errs1].
  cbn [fst snd] in *.
  destruct (hd false faults); [done|].
  pose proof (insert_all_known (Scripts.parse_keys trim raw) (tl faults) tbl1 []) as Hk.
  destruct (Scripts.insert_all _ (tl faults) tbl1 []) as [tbl2 errs2].
  cbn [fst snd] in *. apply Hk.
  apply Forall_forall. intros k Hin.
  apply list_elem_of_lookup in Hin as [i Hi].
  apply (H i k Hi). by rewrite lookup_nil.
Qed.

(** ** seed_redis_from_db.js *)

Lemma calm_lookup n : forall fs i,
  calm n fs = true -> (i < n)%nat -> default false (fs !! i) = false.
Proof.
  induction n as [|n IH]; intros fs i Hc Hi; [lia|].
  destruct fs as [|b fs]; [by rewrite lookup_nil|].
  cbn [calm] in Hc. apply andb_true_iff in Hc as [Hb Hc].
  destruct i as [|i]; cbn [lookup].
  - cbn. by destruct b.
  - apply IH; [done | lia].
Qed.

(** X20: seed_redis_from_db.js and an authorised POST /admin/seed-redis
    do the same to the stores: when no call of either is rejected, the
    script leaves exactly the stores the endpoint leaves (both read
    REDIS_KEYSET, select the keys with deprecated = false and SADD them
    in one MULTI). *)
Theorem script_refill_agrees cfg c e req fs faults w :
  rejected (seed_token req) (ADMIN_TOKEN cfg) = false ->
  calm 2 fs = true -> calm 5 faults = true ->
  snd (Scripts.seed_redis_from_db faults w)
  = snd (run c e (post_admin_seed_redis cfg req) fs w).
Proof.
  intros Hrej Hc Hf. rewrite (seed_calm cfg c e req fs w Hrej Hc).
  unfold Scripts.seed_redis_from_db.
  rewrite !(calm_lookup 5 faults) by (done || lia).
  fold (live_keys w). cbn [orb].
  by destruct (length (live_keys w) =? 0)%nat.
Qed.

Lemma script_refill_agrees_witness :
  snd (Scripts.seed_redis_from_db [] Demo.fresh)
  = snd (run 0%nat (Demo.at_time 0 0%nat "L1")
           (post_admin_seed_redis Demo.cfg Demo.admin) [] Demo.fresh).
Proof.
  apply (script_refill_agrees Demo.cfg 0%nat (Demo.at_time 0 0%nat "L1") Demo.admin
           [] [] Demo.fresh); reflexivity.
Defined.

(** X21: from the file to the pool.  After seed_keys.js has run on the
    table and an authorised refill has gone through, a non-blank line of
    the file whose INSERT was not rejected is in the pool, unless the
    table already held that key with deprecated true or NULL. *)
Theorem file_key_reaches_pool trim raw faults cfg c e req fs w i k :
  hd false faults = false ->
  Scripts.parse_keys trim raw !! i = Some k ->
  tl faults !! i ≠ Some true ->
  (forall row, row ∈ keys w -> k_key_text row = k -> k_deprecated row = Some false) ->
  rejected (seed_token req) (ADMIN_TOKEN cfg) = false ->
  calm 2 fs = true ->
  k ∈ unused_keys
        (snd (run c e (post_admin_seed_redis cfg req) fs
                (Scripts.with_keys
                   (Scripts.seed_keys trim (Some raw) faults (keys w)).1.2 w))).
Proof.
  intros Hf Hi Hok Hold Hrej Hc.
  unfold Scripts.seed_keys. rewrite Hf.
  pose proof (insert_all_each (Scripts.parse_keys trim raw) (tl faults) (keys w) []
                i k Hi) as [Hin _].
  destruct (insert_all_spec (Scripts.parse_keys trim raw) (tl faults) (keys w) [])
    as (new & Heq & Hnew & _).
  destruct (Scripts.insert_all _ _ _ _) as [tbl' errs]. cbn [fst snd] in *.
  specialize (Hin Hok). apply list_elem_of_fmap in Hin as (row & -> & Hrow).
  apply (seed_stocks cfg c e req fs _ row Hrej Hc); cbn [Scripts.with_keys keys].
  - done.
  - rewrite Heq in Hrow. apply elem_of_app in Hrow as [Hrow|Hrow].
    + by apply Hold.
    + rewrite Forall_forall in Hnew. by destruct (Hnew row Hrow).
Qed.

Lemma file_key_reaches_pool_witness :
  "K9" ∈ unused_keys
        (snd (run 0%nat (Demo.at_time 0 0%nat "L1")
                (post_admin_seed_redis Demo.cfg Demo.admin) []
                (Scripts.with_keys
                   (Scripts.seed_keys (fun s => s)
                      (Some (String "K" (String Scripts.lf "K9"))) []
                      (keys Demo.fresh)).1.2 Demo.fresh))).
Proof.
  apply (file_key_reaches_pool (fun s => s) (String "K" (String Scripts.lf "K9")) []
           Demo.cfg 0%nat (Demo.at_time 0 0%nat "L1") Demo.admin [] Demo.fresh
           1%nat "K9"); try reflexivity.
  - discriminate.
  - intros row Hrow Hk. cbn in Hrow.
    repeat (apply elem_of_cons in Hrow as [->|Hrow]; [discriminate Hk|]).
    by apply elem_of_nil in Hrow.
Defined.

(** ** Two requests for the same link, at every point of the race *)

Lemma prog_at_served req k p k' :
  Race.prog_at req k p = Ret (your_key k') -> p = Race.Served /\ k' = k.
Proof.
  destruct p; intros H; try discriminate H.
  split; [done|]. symmetry. apply your_key_inj.
  change (Ret (your_key k) = Ret (your_key k')) in H. congruence.
Qed.

(** X22: safety of the race of two GET /key requests for one unused
    link, at every point of every interleaving (no call rejected): a
    request holds the key page only once the row is committed as used
    with its own stamp, and the page is that of the row's key; the two
    never both hold the key page; the row is the original one or the one
    stamped by one of the two; and a request has an uncommitted write
    only while it holds the row lock. *)
Theorem race_safety w pid r c1 e1 req1 c2 e2 req2 n s :
  quiescent w -> issued_pages w !! pid = Some r ->
  JS.truthy_bool (used r) = false -> c1 ≠ c2 ->
  req_pageId req1 = pid -> req_pageId req2 = pid ->
  Race.steps n (Race.start w c1 e1 req1 c2 e2 req2) s ->
  (forall k, Race.code (Race.thread_a s) = Ret (your_key k) ->
     k = key_text r
     /\ issued_pages (Race.shared s) !! pid = Some (redeemed e1 req1 r)
     /\ forall k', Race.code (Race.thread_b s) ≠ Ret (your_key k'))
  /\ (forall k, Race.code (Race.thread_b s) = Ret (your_key k) ->
        k = key_text r
        /\ issued_pages (Race.shared s) !! pid = Some (redeemed e2 req2 r)
        /\ forall k', Race.code (Race.thread_a s) ≠ Ret (your_key k'))
  /\ (issued_pages (Race.shared s) !! pid = Some r
      \/ issued_pages (Race.shared s) !! pid = Some (redeemed e1 req1 r)
      \/ issued_pages (Race.shared s) !! pid = Some (redeemed e2 req2 r))
  /\ (forall m, txns (Race.shared s) !! c1 = Some m -> m ≠ ∅ ->
        locks (Race.shared s) !! pid = Some c1)
  /\ (forall m, txns (Race.shared s) !! c2 = Some m -> m ≠ ∅ ->
        locks (Race.shared s) !! pid = Some c2).
Proof.
  intros Hq Hr Hu Hc Hid1 Hid2 Hsteps.
  destruct (inv_steps _ _ _ _ _ _ _ _ _ _ _ Hq Hr Hu Hc Hid1 Hid2 Hsteps)
    as (pa & pb & [Hcomp Hf Hs Ht1 Ht2 Hl Hrow] & _).
  rewrite Hf, Hs, Ht1, Ht2, Hl, Hrow. cbn [Race.code Race.thread_at].
  repeat split.
  - by apply prog_at_served in H as [_ ->].
  - apply prog_at_served in H as [-> _]. done.
  - intros k' [-> _]%prog_at_served. apply prog_at_served in H as [-> _]. done.
  - by apply prog_at_served in H as [_ ->].
  - apply prog_at_served in H as [-> _]. by destruct pa.
  - intros k' [-> _]%prog_at_served. apply prog_at_served in H as [-> _]. done.
  - unfold Race.row_at. destruct (Race.committed pa); [by right; left|].
    destruct (Race.committed pb); [by right; right | by left].
  - intros m Hm Hne. destruct pa; try done; injection Hm as <-; done.
  - intros m Hm Hne. destruct pb; try done; injection Hm as <-; try done.
    by destruct pa.
Qed.

Lemma race_safety_witness :
  issued_pages (Race.shared (Race.play Demo.schedule Demo.race).2) !! "L1"
  = Some (redeemed (Demo.at_time 201 0 "") (Demo.visitor "10.0.0.2" "L1")
            (Store.fresh_row "K1" 100)).
Proof.
  refine (proj1 (proj2 (proj1 (proj2
    (race_safety Demo.issued "L1" (Store.fresh_row "K1" 100)
       1 (Demo.at_time 200 0 "") (Demo.visitor "10.0.0.1" "L1")
       2 (Demo.at_time 201 0 "") (Demo.visitor "10.0.0.2" "L1")
       (Race.play Demo.schedule Demo.race).1 (Race.play Demo.schedule Demo.race).2
       _ _ _ _ _ _ _)) "K1" _))).
  - split; reflexivity.
  - reflexivity.
  - reflexivity.
  - lia.
  - reflexivity.
  - reflexivity.
  - apply play_steps.
  - vm_compute; reflexivity.
Defined.

(** ** Two requests for the same link: the stores they leave *)

Section FrameProofs.

Import Race.

Lemma prog_at_past_del req k p p' :
  prog_at req k p = prog_at req k p' -> past_del p = past_del p'.
Proof.
  intros H.
  apply (f_equal (fun q : prog response =>
           match q with
           | Call o h =>
               match o in op X return (result X -> prog response) -> prog response with
               | Release => fun h => h (Ok tt)
               | _ => fun _ => Throw
               end h
           | q => q
           end)) in H.
  destruct p, p'; try reflexivity; discriminate H.
Qed.

Lemma frame_swap w pid c1 c2 pa pb s :
  frame w pid c1 c2 pa pb s -> frame w pid c2 c1 pb pa (swap s).
Proof.
  intros [H1 H2 H3 H4 H5 H6 H7].
  split; cbn [swap shared]; try done.
  - intros c Hc2 Hc1. by apply H5.
  - by rewrite orb_comm.
Qed.

Lemma lookup_release_none (c : nat) (i : string) (l : gmap string nat) :
  l !! i = None -> Store.release_locks c l !! i = None.
Proof. intros H. apply map_lookup_filter_None. by left. Qed.

Lemma frame_start w pid c1 e1 req1 c2 e2 req2 :
  quiescent w ->
  frame w pid c1 c2 AtConnect AtConnect (start w c1 e1 req1 c2 e2 req2).
Proof.
  intros [Ht Hl]. split; cbn [start shared past_del orb]; try done.
  - intros c _ _. by rewrite Ht.
  - intros i _. by rewrite Hl.
Qed.

Ltac frame_fields :=
  cbn [shared thread_a thread_b unused_keys keys console redis_strings txns locks
       issued_pages with_txns with_locks with_issued_pages with_redis_strings
       Store.end_txn past_del orb].

Section Pair.

Variables (w : world) (pid : string) (r : issued_page).
Variables (c1 : nat) (e1 : env) (req1 : request).
Variables (c2 : nat) (e2 : env) (req2 : request).
Hypothesis Hid1 : req_pageId req1 = pid.
Hypothesis Hc : c1 ≠ c2.
Hypothesis Hunused : JS.truthy_bool (used r) = false.

(** A call of request a leaves alone what the frame says. *)
Lemma frame_step_a pa pb s a' w' pa' :
  inv pid r c1 e1 req1 c2 e2 req2 pa pb s ->
  frame w pid c1 c2 pa pb s ->
  step_thread (thread_a s) (shared s) = Some (a', w') ->
  a' = thread_at c1 e1 req1 (key_text r) pa' ->
  frame w pid c1 c2 pa' pb {| shared := w'; thread_a := a'; thread_b := thread_b s |}.
Proof.
  intros [Hcomp Hf Hs Ht1 Ht2 Hl Hr] [F1 F2 F3 F4 F5 F6 F7] Hstep Ha'.
  rewrite Hf in Hstep.
  pose proof Hl as Hl'. pose proof Hr as Hr'. rewrite <- Hid1 in Hl', Hr'.
  assert (forall X, a' = thread_at c1 e1 req1 (key_text r) X ->
                    past_del pa' = past_del X) as Hpd.
  { intros X HX. rewrite HX in Ha'. injection Ha' as Ha'.
    symmetry. by apply (prog_at_past_del req1 (key_text r)). }
  destruct pa; cbn [past_del orb] in F7.
  - rewrite step_connect in Hstep. injection Hstep as <- <-.
    split; frame_fields; rewrite ?(Hpd AtBegin eq_refl); frame_fields; try done.
  - rewrite step_begin in Hstep by done. injection Hstep as <- <-.
    split; frame_fields; rewrite ?(Hpd AtSelect eq_refl); frame_fields; try done.

    intros c Hn1 Hn2. rewrite lookup_insert_ne by done. by apply F5.
  - destruct (holds_lock pb) eqn:Hpb.
    { unfold holder_at in Hl'. cbn [holds_lock] in Hl'. rewrite Hpb in Hl'.
      erewrite step_select_waits in Hstep; eauto. discriminate. }
    unfold holder_at in Hl'. cbn [holds_lock] in Hl'. rewrite Hpb in Hl'.
    erewrite step_select in Hstep; eauto.
    2: { unfold row_at. cbn [committed]. by destruct (committed pb). }
    injection Hstep as <- <-.
    split; frame_fields; rewrite ?(Hpd _ eq_refl); frame_fields; try done.
    2: { match goal with
         | |- context [past_del (if ?b then _ else _)] => destruct b
         end; cbn [past_del orb]; done. }
    intros i Hi. rewrite lookup_insert_ne by congruence. by apply F6.
  - assert (committed pb = false /\ holds_lock pb = false) as [Hcpb Hlpb]
      by (destruct pb; done).
    unfold row_at, holder_at in *. cbn [committed holds_lock] in *.
    rewrite Hcpb in *.
    rewrite step_update in Hstep by done. injection Hstep as <- <-.
    split; frame_fields; rewrite ?(Hpd AtCommit eq_refl); frame_fields; try done.

    + intros c Hn1 Hn2. rewrite lookup_insert_ne by done. by apply F5.
    + intros i Hi. rewrite lookup_insert_ne by congruence. by apply F6.
  - rewrite step_commit in Hstep. injection Hstep as <- <-.
    split; frame_fields; rewrite ?(Hpd AtDel eq_refl); frame_fields; try done.

    + intros i Hi. unfold Store.visible. cbn [txn_at] in Ht1. rewrite Ht1.
      cbn [default from_option id].
      rewrite Hid1, commit_singleton, lookup_insert_ne by done. by apply F4.
    + intros c Hn1 Hn2. rewrite lookup_delete_ne by done. by apply F5.
    + intros i Hi. by apply lookup_release_none, F6.
  - rewrite step_del in Hstep. injection Hstep as <- <-.
    split; frame_fields; rewrite ?(Hpd AtReleaseServed eq_refl); frame_fields; try done.

    rewrite F7, Hid1. cbn [past_del orb].
    destruct (past_del pb); [by rewrite delete_delete_eq | done].
  - rewrite step_release_served in Hstep. injection Hstep as <- <-.
    split; frame_fields; rewrite ?(Hpd Served eq_refl); frame_fields; try done.

    + intros c Hn1 Hn2. rewrite lookup_delete_ne by done. by apply F5.
    + intros i Hi. by apply lookup_release_none, F6.
  - discriminate.
  - rewrite step_rollback in Hstep. injection Hstep as <- <-.
    split; frame_fields; rewrite ?(Hpd AtReleaseClaimed eq_refl); frame_fields; try done.

    + intros c Hn1 Hn2. rewrite lookup_delete_ne by done. by apply F5.
    + intros i Hi. by apply lookup_release_none, F6.
  - rewrite step_release_claimed in Hstep. injection Hstep as <- <-.
    split; frame_fields; rewrite ?(Hpd Claimed eq_refl); frame_fields; try done.

    + intros c Hn1 Hn2. rewrite lookup_delete_ne by done. by apply F5.
    + intros i Hi. by apply lookup_release_none, F6.
  - discriminate.
Qed.

End Pair.

(** Every state the race reaches satisfies the invariant and the frame. *)
Lemma frame_steps w pid r c1 e1 req1 c2 e2 req2 n s :
  quiescent w -> issued_pages w !! pid = Some r ->
  JS.truthy_bool (used r) = false -> c1 ≠ c2 ->
  req_pageId req1 = pid -> req_pageId req2 = pid ->
  steps n (start w c1 e1 req1 c2 e2 req2) s ->
  exists pa pb,
    inv pid r c1 e1 req1 c2 e2 req2 pa pb s /\ frame w pid c1 c2 pa pb s.
Proof.
  intros Hq Hr Hu Hc Hid1 Hid2 Hsteps.
  remember (start w c1 e1 req1 c2 e2 req2) as s0 eqn:Hs0.
  induction Hsteps as [s|n s1 s2 s3 Hsteps IH Hstep].
  - subst s. exists AtConnect, AtConnect.
    split; [by apply inv_start | by apply frame_start].
  - destruct (IH Hs0) as (pa & pb & Hinv & Hfr).
    destruct Hstep as [w0 a b a' w' Ha|w0 a b b' w' Hb].
    + destruct (inv_step_a _ _ _ _ _ _ _ _ Hid1 Hc Hu _ _ _ _ _ Hinv Ha)
        as (pa' & Hinv' & _).
      exists pa', pb. split; [done|].
      change b with (thread_b {| shared := w0; thread_a := a; thread_b := b |}).
      eapply frame_step_a with (r := r) (e1 := e1) (req1 := req1) (e2 := e2)
        (req2 := req2) (pa := pa); try eassumption.
      by destruct Hinv'.
    + destruct (inv_step_b _ _ _ _ _ _ _ _ _ _ _ _ _ Hid2 Hc Hu Hinv Hb)
        as (pb' & Hinv' & _).
      exists pa, pb'. split; [done|].
      apply inv_swap in Hinv. apply frame_swap in Hfr.
      assert (frame w pid c2 c1 pb' pa
                {| shared := w'; thread_a := b';
                   thread_b := thread_b (swap {| shared := w0; thread_a := a;
                                                 thread_b := b |}) |}) as Hfr'.
      { eapply frame_step_a with (r := r) (e1 := e2) (req1 := req2) (e2 := e1)
          (req2 := req1) (pa := pb); try eassumption; [congruence|].
        by destruct Hinv'. }
      by apply frame_swap in Hfr'.
Qed.

End FrameProofs.

(** When request a was served and request b told the key is claimed, the
    stores are those of serving a and then b, one after the other. *)
Lemma serial_a_first w pid r c1 e1 req1 c2 e2 req2 s :
  quiescent w -> issued_pages w !! pid = Some r ->
  JS.truthy_bool (used r) = false -> c1 ≠ c2 ->
  req_pageId req1 = pid -> req_pageId req2 = pid ->
  Race.inv pid r c1 e1 req1 c2 e2 req2 Race.Served Race.Claimed s ->
  frame w pid c1 c2 Race.Served Race.Claimed s ->
  exists w1,
    run c1 e1 (get_key req1) [] w = (Done (your_key (key_text r)), w1)
    /\ run c2 e2 (get_key req2) [] w1 = (Done already_claimed, Race.shared s).
Proof.
  intros Hq Hr Hu Hc Hid1 Hid2 [_ _ _ Ht1 Ht2 Hl Hrow] [F1 F2 F3 F4 F5 F6 F7].
  cbn [Race.txn_at Race.holder_at Race.row_at Race.holds_lock Race.committed] in *.
  cbn [past_del orb] in F7.
  set (w1 := with_redis_strings (delete ("page_ttl:" +:+ pid) (redis_strings w))
               (with_issued_pages (<[pid := redeemed e1 req1 r]> (issued_pages w)) w)).
  assert (Race.shared s = w1) as Hsh.
  { destruct Hq as [Hqt Hql]. subst w1.
    destruct (Race.shared s) as [ks rs kk ip tx lk cs], w as [ks0 rs0 kk0 ip0 tx0 lk0 cs0].
    unfold with_redis_strings, with_issued_pages.
    cbn [unused_keys redis_strings keys issued_pages txns locks console] in *.
    subst. f_equal.
    - apply map_eq. intros i. destruct (decide (i = req_pageId req1)) as [->|Hi].
      + by rewrite Hrow, lookup_insert_eq.
      + rewrite lookup_insert_ne by done. by apply F4.
    - apply map_eq. intros c. rewrite lookup_empty.
      destruct (decide (c = c1)) as [->|H1]; [done|].
      destruct (decide (c = c2)) as [->|H2]; [done|]. by apply F5.
    - apply map_eq. intros i. rewrite lookup_empty.
      destruct (decide (i = req_pageId req1)) as [->|Hi]; [done|]. by apply F6. }
  assert (quiescent w1) as Hq1 by (destruct Hq; by split).
  exists w1. split.
  - rewrite (get_key_calm c1 e1 req1 [] w Hq eq_refl).
    unfold key_answer. rewrite Hid1, Hr, Hu. reflexivity.
  - rewrite (get_key_calm c2 e2 req2 [] w1 Hq1 eq_refl), Hsh.
    unfold key_answer. rewrite Hid2.
    cbn [w1 issued_pages with_redis_strings with_issued_pages].
    rewrite lookup_insert_eq. reflexivity.
Qed.

(** X23: the race of two GET /key requests for one unused link is
    serial (no call rejected): whenever both requests have returned,
    their answers and the stores are exactly those of serving the two
    requests one after the other, in one of the two orders. *)
Theorem race_is_serial w pid r c1 e1 req1 c2 e2 req2 n s ra rb :
  quiescent w -> issued_pages w !! pid = Some r ->
  JS.truthy_bool (used r) = false -> c1 ≠ c2 ->
  req_pageId req1 = pid -> req_pageId req2 = pid ->
  Race.steps n (Race.start w c1 e1 req1 c2 e2 req2) s ->
  Race.code (Race.thread_a s) = Ret ra -> Race.code (Race.thread_b s) = Ret rb ->
  (exists w1,
     run c1 e1 (get_key req1) [] w = (Done ra, w1)
     /\ run c2 e2 (get_key req2) [] w1 = (Done rb, Race.shared s))
  \/ (exists w1,
        run c2 e2 (get_key req2) [] w = (Done rb, w1)
        /\ run c1 e1 (get_key req1) [] w1 = (Done ra, Race.shared s)).
Proof.
  intros Hq Hr Hu Hc Hid1 Hid2 Hsteps Ha Hb.
  destruct (frame_steps _ _ _ _ _ _ _ _ _ _ _ Hq Hr Hu Hc Hid1 Hid2 Hsteps)
    as (pa & pb & Hinv & Hfr).
  pose proof (Race.inv_compatible _ _ _ _ _ _ _ _ _ _ _ Hinv) as Hcomp.
  pose proof (Race.inv_a _ _ _ _ _ _ _ _ _ _ _ Hinv) as Hf.
  pose proof (Race.inv_b _ _ _ _ _ _ _ _ _ _ _ Hinv) as Hs.
  rewrite Hf in Ha. rewrite Hs in Hb. cbn [Race.code Race.thread_at] in Ha, Hb.
  destruct pa; try discriminate Ha; destruct pb; try discriminate Hb;
    try discriminate Hcomp.
  - left. injection Ha as <-. injection Hb as <-.
    by apply (serial_a_first w pid r c1 e1 req1 c2 e2 req2 s).
  - right. injection Ha as <-. injection Hb as <-.
    apply inv_swap in Hinv. apply frame_swap in Hfr.
    by apply (serial_a_first w pid r c2 e2 req2 c1 e1 req1 (Race.swap s)).
Qed.

Lemma race_is_serial_witness :
  exists w1,
    run 2 (Demo.at_time 201 0 "") (get_key (Demo.visitor "10.0.0.2" "L1")) [] Demo.issued
      = (Done (your_key "K1"), w1)
    /\ run 1 (Demo.at_time 200 0 "") (get_key (Demo.visitor "10.0.0.1" "L1")) [] w1
         = (Done already_claimed, Race.shared (Race.play Demo.schedule Demo.race).2).
Proof.
  destruct (race_is_serial Demo.issued "L1" (Store.fresh_row "K1" 100)
              1 (Demo.at_time 200 0 "") (Demo.visitor "10.0.0.1" "L1")
              2 (Demo.at_time 201 0 "") (Demo.visitor "10.0.0.2" "L1")
              (Race.play Demo.schedule Demo.race).1 (Race.play Demo.schedule Demo.race).2
              already_claimed (your_key "K1"))
    as [(w1 & H1 & _)|H]; try reflexivity.
  - split; reflexivity.
  - lia.
  - apply play_steps.
  - vm_compute in H1. discriminate H1.
  - exact H.
Defined.
